(** * Playback control skill: the play-query resolution engine

    A shallow embedding of [src/__init__.py] (class [PlaybackControlSkill])
    and the properties of its query / bid / timeout protocol.

    Modelling decisions, all taken from the source:
    - [self.query_replies] and [self.query_extensions] are Python dicts keyed
      by the search phrase; they are finite maps here.  The lists they hold
      are mutated in place by the source ([append], [remove]); the embedding
      writes the updated list back under the same key.
    - [message.data] is a dict whose keys may be missing.  Each key the
      handlers read is an optional field of a record, so that every
      [KeyError] of the source is a path of the model.  Field contents are
      typed as the bus protocol sends them: phrase and skill id are strings,
      [conf] is a number, [searching] a boolean.
    - [conf] is a finite number; the source only compares confidences with
      [>] and [==], which on finite floats and ints agree with the order of
      the rationals they denote.
    - [callback_data] is an opaque JSON value; only [.get("skill_gui")] and
      its truthiness are ever looked at.
    - Calls on the host framework (bus, scheduler, GUI, speech) are recorded
      in order in a trace.  An exception keeps the state and the trace built
      before it was raised, as Python does.
    - Of the log lines only the one of [handle_song_info] is traced, being
      all that handler lets out; for the others the embedding keeps the
      evaluation of their arguments, which can raise.
    - [with self.lock] serialises the handler bodies; the embedding runs them
      one at a time. *)

From Stdlib Require Import QArith.
From stdpp Require Import gmap strings list fin_maps.

Local Open Scope string_scope.
Local Open Scope list_scope.
#[local] Set Warnings "-register-all".

(** ** Python values and exceptions *)

(** JSON-like payload carried in [callback_data]. *)
Inductive value : Type :=
| VNone
| VBool (b : bool)
| VNum (q : Q)
| VStr (s : string)
| VList (l : list value)
| VDict (d : list (string * value)).

(** Python truth value of an object. *)
Definition truthy (v : value) : bool :=
  match v with
  | VNone => false
  | VBool b => b
  | VNum q => negb (Qeq_bool q 0)
  | VStr s => negb (String.eqb s "")
  | VList l => match l with [] => false | _ => true end
  | VDict d => match d with [] => false | _ => true end
  end.

Fixpoint assoc (k : string) (d : list (string * value)) : option value :=
  match d with
  | [] => None
  | (k', v) :: d' => if String.eqb k k' then Some v else assoc k d'
  end.

Inductive exn : Type :=
| KeyError (key : string)
| AttributeError (attr : string)
| ValueError
| IndexError.

(** [key in d] for an optional dict entry. *)
Definition present {A} (o : option A) : bool :=
  match o with Some _ => true | None => false end.

(** ** Messages *)

Module Payload.
(** The keys of [message.data] read by the query handlers. *)
Record t : Type := mk {
  phrase : option string;
  skill_id : option string;
  conf : option Q;
  searching : option bool;
  callback_data : option value;
}.

Definition empty : t := mk None None None None None.

(** [bool(d)] for a dict: false only when it has no key at all.  The scan
    tests it on replies whose ["conf"] it has just read. *)
Definition truthy (d : t) : bool :=
  present (phrase d) || present (skill_id d) || present (conf d)
  || present (searching d) || present (callback_data d).
End Payload.

Record Message (D : Type) : Type := mkMessage {
  msg_type : string;
  data : D;
  context : list (string * value);
}.
Arguments mkMessage {D} _ _ _.
Arguments msg_type {D} _.
Arguments data {D} _.
Arguments context {D} _.

(** [message.forward(type, data)]: same context, new type and data. *)
Definition forward {D E : Type} (m : Message D) (type : string) (d : E) : Message E :=
  mkMessage type d (context m).

(** ** Calls on the host framework *)

Inductive effect : Type :=
| BusEmit (m : Message Payload.t)
| ScheduleEvent (name : string) (when : nat) (d : Payload.t)
| CancelScheduledEvent (name : string)
| ShowPage (page : string)
| SpeakDialog (dialog : string) (d : Payload.t)
| LogInfo (text : string).

(** ** Skill state *)

Record state : Type := mkState {
  query_replies : gmap string (list Payload.t);
  query_extensions : gmap string (list string);
  has_played : bool;
  gui : gmap string string;
}.

Definition STATUS_KEYS : list string := ["track"; "artist"; "album"; "image"].

(** [__init__] followed by [initialize]: empty session tables, and
    [clear_gui_info] has set every status key to the empty string. *)
Definition clear_gui_info (g : gmap string string) : gmap string string :=
  foldl (fun g k => <[k := ""]> g) g STATUS_KEYS.

Definition init : state :=
  mkState ∅ ∅ false (clear_gui_info ∅).

(** ** The handler monad: state, trace, exceptions *)

Record outcome (A : Type) : Type := mkOutcome {
  result : exn + A;
  final : state;
  trace : list effect;
}.
Arguments mkOutcome {A} _ _ _.
Arguments result {A} _.
Arguments final {A} _.
Arguments trace {A} _.

Definition M (A : Type) : Type := state -> outcome A.

Definition ret {A} (a : A) : M A := fun st => mkOutcome (inr a) st [].

Definition raise {A} (e : exn) : M A := fun st => mkOutcome (inl e) st [].

(** What a continuation does comes after what was done before it. *)
Definition prepend {A} (tr : list effect) (o : outcome A) : outcome A :=
  mkOutcome (result o) (final o) (tr ++ trace o).

Definition bind {A B} (m : M A) (k : A -> M B) : M B :=
  fun st =>
    let o := m st in
    match result o with
    | inl e => mkOutcome (inl e) (final o) (trace o)
    | inr a => prepend (trace o) (k a (final o))
    end.

Notation "x <- m ;; k" := (bind m (fun x => k))
  (at level 100, m at next level, right associativity,
   format "'[v' x  <-  m  ;; '/' k ']'").
Notation "m ;;; k" := (bind m (fun _ => k))
  (at level 100, right associativity,
   format "'[v' m  ;;; '/' k ']'").

Definition get : M state := fun st => mkOutcome (inr st) st [].
Definition put (st : state) : M unit := fun _ => mkOutcome (inr tt) st [].
Definition call (e : effect) : M unit := fun st => mkOutcome (inr tt) st [e].

(** [d[key]] on a dict field. *)
Definition getitem {A} (key : string) (field : option A) : M A :=
  match field with
  | Some a => ret a
  | None => raise (KeyError key)
  end.

(** [self.query_replies[phrase]] and [self.query_extensions[phrase]]. *)
Definition replies_at (p : string) : M (list Payload.t) :=
  st <- get ;; getitem p (query_replies st !! p).

Definition extensions_at (p : string) : M (list string) :=
  st <- get ;; getitem p (query_extensions st !! p).

Definition set_replies (p : string) (l : list Payload.t) : M unit :=
  st <- get ;;
  put (mkState (<[p := l]> (query_replies st)) (query_extensions st)
               (has_played st) (gui st)).

Definition set_extensions (p : string) (l : list string) : M unit :=
  st <- get ;;
  put (mkState (query_replies st) (<[p := l]> (query_extensions st))
               (has_played st) (gui st)).

Definition del_replies (p : string) : M unit :=
  st <- get ;;
  put (mkState (delete p (query_replies st)) (query_extensions st)
               (has_played st) (gui st)).

Definition del_extensions (p : string) : M unit :=
  st <- get ;;
  put (mkState (query_replies st) (delete p (query_extensions st))
               (has_played st) (gui st)).

Definition set_has_played (b : bool) : M unit :=
  st <- get ;;
  put (mkState (query_replies st) (query_extensions st) b (gui st)).

(** [x in l] and [l.remove(x)] on a list of skill ids. *)
Definition contains (x : string) (l : list string) : bool :=
  existsb (String.eqb x) l.

Fixpoint remove (x : string) (l : list string) : exn + list string :=
  match l with
  | [] => inl ValueError
  | y :: l' =>
      if String.eqb x y then inr l'
      else match remove x l' with
           | inl e => inl e
           | inr r => inr (y :: r)
           end
  end.

Definition lift {A} (r : exn + A) : M A :=
  match r with
  | inl e => raise e
  | inr a => ret a
  end.

(** The scheduler calls of the skill, all under the one event name. *)
Definition TIMEOUT : string := "PlayQueryTimeout".

Definition phrase_data (p : string) : Payload.t :=
  Payload.mk (Some p) None None None None.

Definition schedule_event (when : nat) (p : string) : M unit :=
  call (ScheduleEvent TIMEOUT when (phrase_data p)).

Definition cancel_scheduled_event : M unit :=
  call (CancelScheduledEvent TIMEOUT).

(** [self.query_extensions[p].append(x)], [self.query_extensions[p].remove(x)]
    and [self.query_replies[p].append(d)]: the list stored under [p] is
    looked up (a [KeyError] when the key is missing) and mutated. *)
Definition extensions_append (p x : string) : M unit :=
  exts <- extensions_at p ;;
  set_extensions p (exts ++ [x]).

Definition extensions_remove (p x : string) : M unit :=
  exts <- extensions_at p ;;
  exts' <- lift (remove x exts) ;;
  set_extensions p exts'.

Definition replies_append (p : string) (d : Payload.t) : M unit :=
  rs <- replies_at p ;;
  set_replies p (rs ++ [d]).

(** [v.get(key, default)]: only a dict has the method. *)
Definition value_get (v : value) (key : string) (dflt : value) : M value :=
  match v with
  | VDict d => ret (default dflt (assoc key d))
  | _ => raise (AttributeError "get")
  end.

(** [random.choice(l)] returns [l[k]] for some [k < len(l)]; the draw is the
    argument [rnd], reduced modulo the length. *)
Definition random_choice {A} (rnd : nat) (l : list A) : M A :=
  match l !! (rnd mod length l)%nat with
  | Some x => ret x
  | None => raise IndexError
  end.

(** [>] and [==] on confidences. *)
Definition conf_gt (a b : Q) : bool :=
  match (a ?= b)%Q with Gt => true | _ => false end.

Definition conf_eq (a b : Q) : bool := Qeq_bool a b.

(** ** The handlers *)

Section Skill.

(** [self.neon_in_request(message)] is inherited from [NeonSkill]; the skill
    only branches on its answer. *)
Variable neon_in_request : Message Payload.t -> bool.

(** [play]: the phrase is what the source extracts from the utterance with
    [re.sub]; [use_hesitation] is the answer of
    [self.check_for_signal("CORE_useHesitation", -1)]. *)
Definition play {D} (use_hesitation : bool) (message : Message D)
    (phrase : string) : M unit :=
  (if use_hesitation then call (SpeakDialog "one_moment" Payload.empty)
   else ret tt) ;;;
  set_replies phrase [] ;;;
  set_extensions phrase [] ;;;
  call (BusEmit (forward message "play:query" (phrase_data phrase))) ;;;
  schedule_event 1 phrase.

Definition handle_play_query_response (message : Message Payload.t) : M unit :=
  search_phrase <- getitem "phrase" (Payload.phrase (data message)) ;;
  st <- get ;;
  if present (Payload.searching (data message))
     && present (query_extensions st !! search_phrase)
  then
    (* Manage requests for time to complete searches *)
    skill_id <- getitem "skill_id" (Payload.skill_id (data message)) ;;
    searching <- getitem "searching" (Payload.searching (data message)) ;;
    if searching : bool then
      (* extend the timeout by 5 seconds *)
      cancel_scheduled_event ;;;
      schedule_event 5 search_phrase ;;;
      exts <- extensions_at search_phrase ;;
      if negb (contains skill_id exts)
      then extensions_append search_phrase skill_id
      else ret tt
    else
      (* Search complete, don't wait on this skill any longer *)
      exts <- extensions_at search_phrase ;;
      if contains skill_id exts then
        extensions_remove search_phrase skill_id ;;;
        exts <- extensions_at search_phrase ;;
        match exts with
        | [] =>
            cancel_scheduled_event ;;;
            schedule_event 1 search_phrase
        | _ :: _ => ret tt
        end
      else ret tt
  else if present (query_replies st !! search_phrase) then
    (* Collect all replies until the timeout *)
    phrase <- getitem "phrase" (Payload.phrase (data message)) ;;
    replies_append phrase (data message) ;;;
    skill_id <- getitem "skill_id" (Payload.skill_id (data message)) ;;
    (* Search complete, don't wait on this skill any longer *)
    exts <- extensions_at search_phrase ;;
    if contains skill_id exts then
      extensions_remove search_phrase skill_id ;;;
      exts <- extensions_at search_phrase ;;
      match exts with
      | [] =>
          cancel_scheduled_event ;;;
          schedule_event 0 search_phrase
      | _ :: _ => ret tt
      end
    else ret tt
  else ret tt.

(** The scan of [_play_query_timeout]: [best] and [ties] are the loop
    variables.  The two [getitem]s in front are the arguments of the
    [LOG.debug] call, evaluated for every reply. *)
Fixpoint scan (handlers : list Payload.t) (best : option Payload.t)
    (ties : list Payload.t) : M (option Payload.t * list Payload.t) :=
  match handlers with
  | [] => ret (best, ties)
  | handler :: rest =>
      _ <- getitem "conf" (Payload.conf handler) ;;
      _ <- getitem "skill_id" (Payload.skill_id handler) ;;
      match best with
      | None => scan rest (Some handler) []
      | Some b =>
          if negb (Payload.truthy b) then scan rest (Some handler) []
          else
            hc <- getitem "conf" (Payload.conf handler) ;;
            bc <- getitem "conf" (Payload.conf b) ;;
            if conf_gt hc bc then scan rest (Some handler) []
            else
              hc <- getitem "conf" (Payload.conf handler) ;;
              bc <- getitem "conf" (Payload.conf b) ;;
              if conf_eq hc bc then scan rest best (ties ++ [handler])
              else scan rest best ties
      end
  end.

(** [[s["skill_id"] for s in skills]], built for a log line. *)
Fixpoint skill_ids (skills : list Payload.t) : M (list string) :=
  match skills with
  | [] => ret []
  | s :: rest =>
      i <- getitem "skill_id" (Payload.skill_id s) ;;
      ids <- skill_ids rest ;;
      ret (i :: ids)
  end.

Definition start_data (selected : Payload.t) (sid search_phrase : string)
    : Payload.t :=
  Payload.mk (Some search_phrase) (Some sid) None None
    (Some (default VNone (Payload.callback_data selected))).

Definition _play_query_timeout (rnd : nat) (message : Message Payload.t)
    : M unit :=
  (* Prevent any late-comers from retriggering this query handler *)
  search_phrase <- getitem "phrase" (Payload.phrase (data message)) ;;
  set_extensions search_phrase [] ;;;
  (* Find response(s) with the highest confidence *)
  handlers <- replies_at search_phrase ;;
  r <- scan handlers None [] ;;
  let '(best, ties) := r in
  match best with
  | Some best =>
      if Payload.truthy best then
        selected <-
          match ties with
          | _ :: _ =>
              (* select randomly *)
              let skills := ties ++ [best] in
              _ <- skill_ids skills ;;
              random_choice rnd skills
          | [] => ret best
          end ;;
        (* If skill specified it has its own gui, don't use the generic one *)
        skill_gui <-
          value_get (default (VDict []) (Payload.callback_data best))
                    "skill_gui" (VBool false) ;;
        (if negb (truthy skill_gui) then call (ShowPage "controls.qml")
         else ret tt) ;;;
        _ <- getitem "skill_id" (Payload.skill_id selected) ;;
        sid <- getitem "skill_id" (Payload.skill_id selected) ;;
        call (BusEmit (forward message "play:start"
                         (start_data selected sid search_phrase))) ;;;
        set_has_played true
      else
        if neon_in_request message
        then call (SpeakDialog "cant.play" (phrase_data search_phrase))
        else ret tt
  | None =>
      if neon_in_request message
      then call (SpeakDialog "cant.play" (phrase_data search_phrase))
      else ret tt
  end ;;;
  st <- get ;;
  (if present (query_replies st !! search_phrase)
   then del_replies search_phrase else ret tt) ;;;
  st <- get ;;
  (if present (query_extensions st !! search_phrase)
   then del_extensions search_phrase else ret tt).

(** [try: body  except KeyError: handler]. *)
Definition try_except_KeyError {A} (body handler : M A) : M A :=
  fun st =>
    let o := body st in
    match result o with
    | inl (KeyError _) =>
        let o' := handler (final o) in
        mkOutcome (result o') (final o') (trace o ++ trace o')
    | _ => o
    end.

(** [self.gui[key]] and [self.gui[key] = val]. *)
Definition gui_at (key : string) : M string :=
  st <- get ;; getitem key (gui st !! key).

Definition set_gui (key val : string) : M unit :=
  st <- get ;;
  put (mkState (query_replies st) (query_extensions st) (has_played st)
               (<[key := val]> (gui st))).

Fixpoint song_info_loop (d : gmap string string) (keys : list string)
    (changed : bool) : M bool :=
  match keys with
  | [] => ret changed
  | key :: rest =>
      let val := default "" (d !! key) in
      changed <-
        try_except_KeyError
          (if changed then ret true
           else old <- gui_at key ;; ret (negb (String.eqb old val)))
          (ret true) ;;
      set_gui key val ;;;
      song_info_loop d rest changed
  end.

Definition nl : string := String (Ascii.ascii_of_nat 10) "".

Definition handle_song_info (message : Message (gmap string string))
    : M unit :=
  changed <- song_info_loop (data message) STATUS_KEYS false ;;
  if changed : bool then
    track <- gui_at "track" ;;
    artist <- gui_at "artist" ;;
    image <- gui_at "image" ;;
    call (LogInfo (nl +:+ "-->Track: " +:+ track +:+ nl +:+ "-->Artist: "
                   +:+ artist +:+ nl +:+ "-->Image: " +:+ image))
  else ret tt.

(** ** Runs of the skill: one handler at a time *)

Inductive op : Type :=
| Play (use_hesitation : bool) (message : Message Payload.t) (phrase : string)
| QueryResponse (message : Message Payload.t)
| QueryTimeout (rnd : nat) (message : Message Payload.t)
| SongInfo (message : Message (gmap string string)).

Definition run_op (o : op) : M unit :=
  match o with
  | Play h m p => play h m p
  | QueryResponse m => handle_play_query_response m
  | QueryTimeout rnd m => _play_query_timeout rnd m
  | SongInfo m => handle_song_info m
  end.

(** States the skill can be in between two handler executions, also after
    a handler that ended in an exception. *)
Inductive reachable : state -> Prop :=
| reachable_init : reachable init
| reachable_step st o : reachable st -> reachable (final (run_op o st)).

End Skill.

(** Modelled from the spec: the timer service is an external collaborator of
    the skill; its contract (section 6) is that [schedule] replaces any timer
    of the same name and [cancel] is a safe no-op when there is none.
    [timer_after] replays a trace on the one pending timer of a name. *)
Fixpoint timer_after (name : string) (tr : list effect)
    (pending : option (nat * Payload.t)) : option (nat * Payload.t) :=
  match tr with
  | [] => pending
  | ScheduleEvent n when d :: tr' =>
      timer_after name tr' (if String.eqb n name then Some (when, d) else pending)
  | CancelScheduledEvent n :: tr' =>
      timer_after name tr' (if String.eqb n name then None else pending)
  | _ :: tr' => timer_after name tr' pending
  end.

(** The [play:start] events of a trace. *)
Definition is_play_start (e : effect) : bool :=
  match e with
  | BusEmit m => String.eqb (msg_type m) "play:start"
  | _ => false
  end.

(** ** Vocabulary of the properties *)

(** A reply that carries what a final bid must carry. *)
Definition is_bid (d : Payload.t) : Prop :=
  is_Some (Payload.skill_id d) /\ is_Some (Payload.conf d).

Definition confidence (d : Payload.t) : Q := default 0%Q (Payload.conf d).

Definition provider (d : Payload.t) : string := default "" (Payload.skill_id d).

(** [callback_data] is left out or is a map. *)
Definition callback_is_map (d : Payload.t) : Prop :=
  match Payload.callback_data d with
  | None | Some (VDict _) => True
  | Some _ => False
  end.

(** The replies of [l] whose confidence equals that of [b]. *)
Definition ties_with (b : Payload.t) (l : list Payload.t) : list Payload.t :=
  List.filter (fun h => conf_eq (confidence h) (confidence b)) l.

(** The bid says its provider brings its own presentation surface. *)
Definition own_gui (d : Payload.t) : bool :=
  match Payload.callback_data d with
  | Some (VDict m) => truthy (default (VBool false) (assoc "skill_gui" m))
  | _ => false
  end.

(** The [play:start] event that dispatches [selected] for phrase [p]. *)
Definition play_start (message : Message Payload.t) (selected : Payload.t)
    (p : string) : effect :=
  BusEmit (forward message "play:start"
             (start_data selected (provider selected) p)).

Definition session_open (st : state) (p : string) : Prop :=
  is_Some (query_replies st !! p).

(** What holds between two handler executions. *)
Definition inv (st : state) : Prop :=
  (forall p, is_Some (query_replies st !! p) ->
             is_Some (query_extensions st !! p))
  /\ (forall p exts, query_extensions st !! p = Some exts -> NoDup exts).

(** The two timer calls every reschedule of the source makes. *)
Definition reschedule (when : nat) (p : string) : list effect :=
  [CancelScheduledEvent TIMEOUT; ScheduleEvent TIMEOUT when (phrase_data p)].

(** A computation that leaves both session tables as they are. *)
Definition keeps_tables {A} (m : M A) : Prop :=
  forall st,
    query_replies (final (m st)) = query_replies st
    /\ query_extensions (final (m st)) = query_extensions st.

(** The exception a run ended with, if any. *)
Definition result_error {A} (o : outcome A) : option exn :=
  match result o with inl e => Some e | inr _ => None end.

(** State [st] with the extension list of [p] replaced. *)
Definition with_extensions (st : state) (p : string) (exts : list string)
    : state :=
  mkState (query_replies st) (<[p := exts]> (query_extensions st))
          (has_played st) (gui st).

(** State [st] with the reply list of [p] replaced. *)
Definition with_replies (st : state) (p : string) (rs : list Payload.t)
    : state :=
  mkState (<[p := rs]> (query_replies st)) (query_extensions st)
          (has_played st) (gui st).

(** The value a status message gives to key [k]: absent counts as [""]. *)
Definition status_val (d : gmap string string) (k : string) : string :=
  default "" (d !! k).

(** Key [k] of the cache does not hold what the message gives it. *)
Definition differs (g d : gmap string string) (k : string) : bool :=
  match g !! k with
  | Some old => negb (String.eqb old (status_val d k))
  | None => true
  end.

Definition update_gui (d g : gmap string string) (keys : list string)
    : gmap string string :=
  foldl (fun g k => <[k := status_val d k]> g) g keys.

(** ** Sample traffic *)

(** A final bid of provider [s] for phrase [p]. *)
Definition sample_bid (p s : string) (c : Q) (cb : option value) : Payload.t :=
  Payload.mk (Some p) (Some s) (Some c) None cb.

(** An extension signal of provider [s] for phrase [p]. *)
Definition sample_signal (p s : string) (b : bool) : Payload.t :=
  Payload.mk (Some p) (Some s) None (Some b) None.

Definition response (d : Payload.t) : Message Payload.t :=
  mkMessage "play:query.response" d [].

(** The message the scheduler hands to [_play_query_timeout]. *)
Definition timeout_message (p : string) : Message Payload.t :=
  mkMessage TIMEOUT (phrase_data p) [].

(** One open session for [p] holding [rs] and [exts]. *)
Definition session (p : string) (rs : list Payload.t) (exts : list string)
    : state :=
  mkState {[ p := rs ]} {[ p := exts ]} false (clear_gui_info ∅).

Definition always (m : Message Payload.t) : bool := true.

(** ** The vocabulary helper and [converse] *)

(** What [voc_match_exact] can end with: the [FileNotFoundError] it raises
    itself, with its message, or the exception that [open(voc)] or
    [f.read()] raised on a path that exists (a directory, no permission,
    bytes that do not decode, a file removed in between), by class name. *)
Inductive voc_error : Type :=
| FileNotFoundError (text : string)
| ReadError (exception : string).

(** What [voc_match_exact] asks of the framework and the file system:
    [self.find_resource], [resolve_resource_file], [os.path.join] of three
    parts, [os.path.exists], [open(path).read().splitlines()], which gives
    the lines or raises, and [str.strip]. *)
Record host : Type := mkHost {
  find_resource : string -> string -> option string;
  resolve_resource_file : string -> option string;
  path_join : string -> string -> string -> string;
  path_exists : string -> bool;
  read_lines : string -> voc_error + list string;
  str_strip : string -> string;
}.

(** Truth value of a path that may be [None]. *)
Definition path_truthy (voc : option string) : bool :=
  match voc with
  | Some v => negb (String.eqb v "")
  | None => false
  end.

(** The last statement of [voc_match_exact] on the cached lines. *)
Definition exact_match (h : host) (utt : string) (lines : list string) : bool :=
  negb (String.eqb utt "")
  && existsb (fun i => String.eqb (str_strip h i) utt) lines.

(** [lang or self.lang]. *)
Definition lang_or (lang : option string) (self_lang : string) : string :=
  match lang with
  | Some l => if String.eqb l "" then self_lang else l
  | None => self_lang
  end.

(** [voc_match_exact]: [cache] is [self.voc_match_cache]; the result comes
    with the cache as the call leaves it. *)
Definition voc_match_exact (h : host) (self_lang : string)
    (cache : gmap string (list string)) (utt voc_filename : string)
    (lang : option string) : (voc_error + bool) * gmap string (list string) :=
  let lang := lang_or lang self_lang in
  let cache_key := lang +:+ voc_filename in
  match cache !! cache_key with
  | Some lines => (inr (exact_match h utt lines), cache)
  | None =>
      (* Check for both skill resources and mycroft-core resources *)
      let voc := find_resource h (voc_filename +:+ ".voc") "vocab" in
      let voc :=
        if path_truthy voc then voc
        else resolve_resource_file h
               (path_join h "text" lang (voc_filename +:+ ".voc")) in
      match voc with
      | Some v =>
          if path_truthy voc && path_exists h v then
            match read_lines h v with
            | inr lines =>
                (inr (exact_match h utt lines), <[cache_key := lines]> cache)
            | inl e => (inl e, cache)
            end
          else
            (inl (FileNotFoundError
                    ("Could not find " +:+ voc_filename +:+ ".voc file")),
             cache)
      | None =>
          (inl (FileNotFoundError
                  ("Could not find " +:+ voc_filename +:+ ".voc file")),
           cache)
      end
  end.

(** The skill object as [converse] sees it: the engine state, the vocabulary
    cache and [self.lang]. *)
Record skill : Type := mkSkill {
  engine : state;
  voc_match_cache : gmap string (list string);
  self_lang : string;
}.

(** Calls of [converse]: on the audio service and on the bus. *)
Inductive host_call : Type :=
| AudioResume
| Bus (e : effect).

(** [converse]: the message data is what [message.data.get("utterances")]
    returns. *)
Definition converse (h : host) (message : Message (option (list string)))
    (sk : skill) : (voc_error + bool) * skill * list host_call :=
  match data message with
  | Some (u :: _) =>
      if has_played (engine sk) then
        let '(r, cache) :=
          voc_match_exact h (self_lang sk) (voc_match_cache sk) u
            "converse_resume" None in
        let sk' := mkSkill (engine sk) cache (self_lang sk) in
        match r with
        | inl e => (inl e, sk', [])
        | inr true =>
            (inr true, sk',
             [AudioResume;
              Bus (BusEmit (forward message "playback_control.resume"
                              Payload.empty))])
        | inr false => (inr false, sk', [])
        end
      else (inr false, sk, [])
  | Some [] | None => (inr false, sk, [])
  end.

(** ** More vocabulary of the properties *)

(** A computation that neither changes the state nor calls the host. *)
Definition silent {A} (m : M A) : Prop :=
  forall st, final (m st) = st /\ trace (m st) = [].

(** The phrase whose session an operation works on. *)
Definition op_phrase (o : op) : option string :=
  match o with
  | Play _ _ p => Some p
  | QueryResponse m | QueryTimeout _ m => Payload.phrase (data m)
  | SongInfo _ => None
  end.

(** A call on the scheduler under the timeout name. *)
Definition is_timer_call (e : effect) : Prop :=
  e = CancelScheduledEvent TIMEOUT
  \/ exists when p, e = ScheduleEvent TIMEOUT when (phrase_data p).

(** A computation whose [has_played] flag follows its [play:start] events. *)
Definition flag_follows {A} (m : M A) : Prop :=
  forall st,
    has_played (final (m st))
    = has_played st || existsb is_play_start (trace (m st)).

(** A computation that leaves the sessions of every phrase but [p] alone. *)
Definition only_session {A} (p : string) (m : M A) : Prop :=
  forall st q, q <> p ->
    query_replies (final (m st)) !! q = query_replies st !! q
    /\ query_extensions (final (m st)) !! q = query_extensions st !! q.

(** A host with one vocabulary file. *)
Definition sample_host : host :=
  mkHost (fun name _ => if String.eqb name "converse_resume.voc"
                        then Some "vocab/converse_resume.voc" else None)
         (fun _ => None)
         (fun a b c => a +:+ "/" +:+ b +:+ "/" +:+ c)
         (fun path => String.eqb path "vocab/converse_resume.voc")
         (fun _ => inr ["resume"; "continue"])
         (fun s => s).

(** A run of handlers, one after the other, with everything they called. *)
Definition run_ops (neon : Message Payload.t -> bool) (ops : list op)
    (st : state) : state * list effect :=
  foldl (fun '(st, tr) o =>
           let r := run_op neon o st in (final r, tr ++ trace r))
        (st, []) ops.

(** * Properties *)

(** ** Running the monad *)

Lemma prepend_nil {A} (o : outcome A) : prepend [] o = o.
Proof. by destruct o. Qed.

Lemma prepend_prepend {A} tr tr' (o : outcome A) :
  prepend tr (prepend tr' o) = prepend (tr ++ tr') o.
Proof. unfold prepend; cbn. by rewrite app_assoc. Qed.

Lemma prepend_mk {A} tr (r : exn + A) st tr' :
  prepend tr (mkOutcome r st tr') = mkOutcome r st (tr ++ tr').
Proof. reflexivity. Qed.

Lemma bind_ret {A B} (a : A) (k : A -> M B) (st : state) :
  bind (ret a) k st = k a st.
Proof. unfold bind, ret; cbn. apply prepend_nil. Qed.

Lemma bind_getitem_Some {A B} key (a : A) (k : A -> M B) (st : state) :
  bind (getitem key (Some a)) k st = k a st.
Proof. apply bind_ret. Qed.

Lemma bind_raise {A B} e (k : A -> M B) (st : state) :
  bind (raise e) k st = mkOutcome (inl e) st [].
Proof. reflexivity. Qed.

Lemma bind_getitem_None {A B} key (k : A -> M B) (st : state) :
  bind (getitem key None) k st = mkOutcome (inl (KeyError key)) st [].
Proof. reflexivity. Qed.

Lemma bind_get {B} (k : state -> M B) (st : state) :
  bind get k st = k st st.
Proof. unfold bind, get; cbn. apply prepend_nil. Qed.

Lemma bind_put {B} (st' : state) (k : unit -> M B) (st : state) :
  bind (put st') k st = k tt st'.
Proof. unfold bind, put; cbn. apply prepend_nil. Qed.

Lemma bind_call {B} (e : effect) (k : unit -> M B) (st : state) :
  bind (call e) k st = prepend [e] (k tt st).
Proof. reflexivity. Qed.

Lemma bind_bind {A B C} (m : M A) (k : A -> M B) (k' : B -> M C) st :
  bind (bind m k) k' st = bind m (fun a => bind (k a) k') st.
Proof.
  unfold bind. destruct (m st) as [[e|a] st1 tr1]; cbn; [done|].
  destruct (k a st1) as [[e|b] st2 tr2]; cbn; [done|].
  by rewrite prepend_prepend.
Qed.

Lemma bind_ok {A B} (m : M A) (k : A -> M B) st a st' tr :
  m st = mkOutcome (inr a) st' tr -> bind m k st = prepend tr (k a st').
Proof. intros H. unfold bind. by rewrite H. Qed.

(** The same steps for a handler that ends there. *)
Lemma run_ret {A} (a : A) st : ret a st = mkOutcome (inr a) st [].
Proof. reflexivity. Qed.

Lemma run_put st' st : put st' st = mkOutcome (inr tt) st' [].
Proof. reflexivity. Qed.

Lemma run_call e st : call e st = mkOutcome (inr tt) st [e].
Proof. reflexivity. Qed.

Ltac mstep :=
  repeat first
    [ rewrite bind_bind
    | rewrite bind_ret
    | rewrite bind_getitem_Some
    | rewrite bind_getitem_None
    | rewrite bind_raise
    | rewrite bind_get
    | rewrite bind_put
    | rewrite bind_call
    | rewrite run_ret
    | rewrite run_put
    | rewrite run_call
    | rewrite prepend_mk
    | rewrite prepend_prepend
    | rewrite prepend_nil ];
  cbn [query_replies query_extensions has_played gui app].

(** ** Skill-id lists *)

Lemma contains_true x l : contains x l = true <-> x ∈ l.
Proof.
  unfold contains. rewrite existsb_exists. split.
  - intros (y & Hy & Heq). apply String.eqb_eq in Heq. subst.
    by apply list_elem_of_In.
  - intros H. exists x. split; [by apply list_elem_of_In | apply String.eqb_refl].
Qed.

Lemma contains_false x l : contains x l = false <-> x ∉ l.
Proof.
  rewrite <- contains_true. destruct (contains x l); split; congruence.
Qed.

Lemma remove_contains x l :
  contains x l = true -> exists r, remove x l = inr r.
Proof.
  induction l as [|y l IH]; cbn; [discriminate|].
  destruct (String.eqb x y); cbn; [eauto|].
  intros H. destruct (IH H) as [r ->]. eauto.
Qed.

Lemma remove_elem x l r : remove x l = inr r -> x ∈ l.
Proof.
  revert r. induction l as [|y l IH]; cbn; intros r; [discriminate|].
  destruct (String.eqb x y) eqn:E.
  - apply String.eqb_eq in E as ->. left.
  - destruct (remove x l); [discriminate|]. intros _. right. eauto.
Qed.

Lemma remove_subset x l r y : remove x l = inr r -> y ∈ r -> y ∈ l.
Proof.
  revert r. induction l as [|z l IH]; cbn; intros r; [discriminate|].
  destruct (String.eqb x z).
  - intros [= ->] Hy. by right.
  - destruct (remove x l) as [|r'] eqn:E; [discriminate|].
    intros [= <-] Hy. apply elem_of_cons in Hy as [->|Hy]; [left|right; eauto].
Qed.

Lemma remove_NoDup x l r : remove x l = inr r -> NoDup l -> NoDup r.
Proof.
  revert r. induction l as [|z l IH]; cbn; intros r; [discriminate|].
  rewrite NoDup_cons. intros H [Hz Hl]. destruct (String.eqb x z).
  - by injection H as <-.
  - destruct (remove x l) as [|r'] eqn:E; [discriminate|].
    injection H as <-. apply NoDup_cons. split; [|by apply IH].
    intros Hin. apply Hz. eapply remove_subset; eauto.
Qed.

(** Removing an element leaves nothing exactly when it was the only one. *)
Lemma remove_last x l : remove x l = inr [] <-> l = [x].
Proof.
  split.
  - destruct l as [|y l]; cbn; [discriminate|].
    destruct (String.eqb x y) eqn:E.
    + apply String.eqb_eq in E. by intros [= ->]; subst.
    + destruct (remove x l); discriminate.
  - intros ->. cbn. by rewrite String.eqb_refl.
Qed.


(** ** The winner scan *)

Lemma conf_gt_true a b : conf_gt a b = true <-> (b < a)%Q.
Proof.
  unfold conf_gt. pose proof (Qgt_alt a b) as H.
  destruct (a ?= b)%Q; split; intros H'; try done;
    try (apply H in H'; discriminate). by apply H.
Qed.

Lemma conf_gt_false a b : conf_gt a b = false <-> (a <= b)%Q.
Proof.
  unfold conf_gt. rewrite Qle_alt. destruct (a ?= b)%Q; split; congruence.
Qed.

Lemma conf_eq_true a b : conf_eq a b = true <-> (a == b)%Q.
Proof. apply Qeq_bool_iff. Qed.

Lemma is_bid_truthy d : is_bid d -> Payload.truthy d = true.
Proof.
  intros [[s Hs] _]. unfold Payload.truthy. rewrite Hs. cbn.
  by rewrite orb_true_r.
Qed.

Lemma is_bid_fields d :
  is_bid d ->
  Payload.skill_id d = Some (provider d) /\ Payload.conf d = Some (confidence d).
Proof.
  intros [[s Hs] [c Hc]]. unfold provider, confidence. by rewrite Hs, Hc.
Qed.

(** One turn of the loop on a bid, [best] already being a bid. *)
Lemma scan_cons h rest b ties st :
  is_bid h -> is_bid b ->
  scan (h :: rest) (Some b) ties st =
    if conf_gt (confidence h) (confidence b) then scan rest (Some h) [] st
    else if conf_eq (confidence h) (confidence b)
         then scan rest (Some b) (ties ++ [h]) st
         else scan rest (Some b) ties st.
Proof.
  intros Hh Hb. cbn [scan].
  destruct (is_bid_fields h Hh) as [-> ->], (is_bid_fields b Hb) as [_ ->].
  rewrite !bind_getitem_Some, (is_bid_truthy b Hb). cbn [negb].
  rewrite !bind_getitem_Some.
  destruct (conf_gt _ _); [done|].
  rewrite !bind_getitem_Some. by destruct (conf_eq _ _).
Qed.

Lemma scan_first h rest ties st :
  is_bid h -> scan (h :: rest) None ties st = scan rest (Some h) [] st.
Proof.
  intros Hh. cbn [scan]. destruct (is_bid_fields h Hh) as [-> ->].
  by rewrite !bind_getitem_Some.
Qed.

(** Once [best] is maximal for what is left, only [ties] grows. *)
Lemma scan_after_best post : forall b ties st,
  is_bid b -> Forall is_bid post ->
  Forall (fun h => (confidence h <= confidence b)%Q) post ->
  scan post (Some b) ties st =
    mkOutcome (inr (Some b, ties ++ ties_with b post)) st [].
Proof.
  induction post as [|h post IH]; intros b ties st Hb Hbids Hle.
  - cbn. by rewrite app_nil_r.
  - apply Forall_cons in Hbids as [Hh Hbids].
    apply Forall_cons in Hle as [Hhb Hle].
    rewrite scan_cons by done.
    apply conf_gt_false in Hhb as ->. cbn [ties_with List.filter].
    destruct (conf_eq _ _).
    + rewrite IH by done. by rewrite <- app_assoc.
    + by apply IH.
Qed.

(** Bids strictly below a later bid [b] leave no mark on the result. *)
Lemma scan_before_best pre : forall b post best ties st,
  is_bid b -> Forall is_bid pre ->
  Forall (fun h => (confidence h < confidence b)%Q) pre ->
  match best with
  | None => True
  | Some b0 => is_bid b0 /\ (confidence b0 < confidence b)%Q
  end ->
  scan (pre ++ b :: post) best ties st = scan post (Some b) [] st.
Proof.
  induction pre as [|h pre IH]; intros b post best ties st Hb Hbids Hlt Hbest.
  - cbn [app]. destruct best as [b0|]; [|by apply scan_first].
    destruct Hbest as [Hb0 Hlt0]. rewrite scan_cons by done.
    by apply conf_gt_true in Hlt0 as ->.
  - apply Forall_cons in Hbids as [Hh Hbids].
    apply Forall_cons in Hlt as [Hhb Hlt].
    rewrite <- app_comm_cons. destruct best as [b0|].
    + destruct Hbest as [Hb0 Hlt0]. rewrite scan_cons by done.
      destruct (conf_gt _ _); [|destruct (conf_eq _ _)]; by apply IH.
    + rewrite scan_first by done. by apply IH.
Qed.

Lemma scan_first_max pre b post st :
  Forall is_bid (pre ++ b :: post) ->
  Forall (fun h => (confidence h < confidence b)%Q) pre ->
  Forall (fun h => (confidence h <= confidence b)%Q) post ->
  scan (pre ++ b :: post) None [] st =
    mkOutcome (inr (Some b, ties_with b post)) st [].
Proof.
  intros Hbids Hpre Hpost.
  apply Forall_app in Hbids as [Hbpre Hbids].
  apply Forall_cons in Hbids as [Hb Hbpost].
  rewrite (scan_before_best pre b post None) by done.
  by rewrite scan_after_best.
Qed.

Lemma ties_with_nil b l :
  Forall (fun h => (confidence h < confidence b)%Q) l -> ties_with b l = [].
Proof.
  induction 1 as [|h l Hlt _ IH]; [done|].
  unfold ties_with in *. cbn [List.filter]. rewrite IH.
  destruct (conf_eq _ _) eqn:E; [|done].
  apply conf_eq_true in E. rewrite E in Hlt. by apply Qlt_irrefl in Hlt.
Qed.

Lemma ties_with_spec b l h :
  h ∈ ties_with b l <-> h ∈ l /\ (confidence h == confidence b)%Q.
Proof.
  unfold ties_with. rewrite !list_elem_of_In, filter_In.
  by rewrite conf_eq_true.
Qed.

(** ** Dispatch *)

Lemma skill_ids_bids l st :
  Forall is_bid l -> skill_ids l st = mkOutcome (inr (map provider l)) st [].
Proof.
  induction 1 as [|d l Hd _ IH]; [done|]. cbn [skill_ids].
  destruct (is_bid_fields d Hd) as [-> _]. mstep.
  erewrite bind_ok by apply IH. by mstep.
Qed.

Lemma random_choice_some {A} rnd (l : list A) :
  l <> [] -> exists x, l !! (rnd mod length l)%nat = Some x.
Proof.
  intros Hl. apply lookup_lt_is_Some_2, Nat.mod_upper_bound.
  by destruct l.
Qed.

(** The lookup of the [skill_gui] flag on a well-formed bid. *)
Lemma skill_gui_flag b st :
  callback_is_map b ->
  exists v, truthy v = own_gui b /\
    value_get (default (VDict []) (Payload.callback_data b))
              "skill_gui" (VBool false) st = mkOutcome (inr v) st [].
Proof.
  unfold callback_is_map, own_gui.
  destruct (Payload.callback_data b) as [[]|]; try done; intros _; cbn;
    [eauto | by exists (VBool false)].
Qed.

(** Everything [_play_query_timeout] does once the replies are bids and the
    first maximal one is [b]. *)
Lemma timeout_dispatch neon rnd message p st pre b post :
  Payload.phrase (data message) = Some p ->
  query_replies st !! p = Some (pre ++ b :: post) ->
  Forall is_bid (pre ++ b :: post) ->
  Forall (fun h => (confidence h < confidence b)%Q) pre ->
  Forall (fun h => (confidence h <= confidence b)%Q) post ->
  callback_is_map b ->
  exists selected,
    match ties_with b post with
    | [] => selected = b
    | _ :: _ =>
        let skills := ties_with b post ++ [b] in
        skills !! (rnd mod length skills)%nat = Some selected
    end /\
    _play_query_timeout neon rnd message st =
      mkOutcome (inr tt)
        (mkState (delete p (query_replies st)) (delete p (query_extensions st))
                 true (gui st))
        ((if own_gui b then [] else [ShowPage "controls.qml"])
         ++ [play_start message selected p]).
Proof.
  intros Hp Hr Hbids Hpre Hpost Hcb.
  assert (Hb : is_bid b).
  { apply Forall_app in Hbids as [_ H]. by apply Forall_cons in H as [? _]. }
  assert (Hskills : Forall is_bid (ties_with b post ++ [b])).
  { apply Forall_app. split; [|by apply Forall_singleton].
    apply Forall_forall. intros h [Hh _]%ties_with_spec.
    rewrite Forall_forall in Hbids. apply Hbids. set_solver. }
  assert (exists selected,
    match ties_with b post with
    | [] => selected = b
    | _ :: _ =>
        (ties_with b post ++ [b])
          !! (rnd mod length (ties_with b post ++ [b]))%nat = Some selected
    end /\ is_bid selected /\
    forall st', match ties_with b post with
          | [] => ret b
          | _ :: _ =>
              skill_ids (ties_with b post ++ [b]) ;;;
              random_choice rnd (ties_with b post ++ [b])
          end st' = mkOutcome (inr selected) st' []) as (selected & Hsel & Hsb & Hrun).
  { destruct (ties_with b post) as [|t ts] eqn:Et; [by exists b|].
    destruct (random_choice_some rnd ((t :: ts) ++ [b])) as [x Hx]; [done|].
    exists x. split; [done|]. split.
    - rewrite Forall_forall in Hskills. apply Hskills.
      by eapply list_elem_of_lookup_2.
    - intros st'. erewrite bind_ok by (by apply skill_ids_bids).
      unfold random_choice. rewrite Hx. by mstep. }
  exists selected. split; [done|].
  unfold _play_query_timeout. rewrite Hp.
  unfold set_extensions, replies_at. mstep. rewrite Hr. mstep.
  erewrite (bind_ok (scan _ _ _)) by (by apply scan_first_max). mstep.
  rewrite (is_bid_truthy b Hb). mstep.
  erewrite bind_ok by apply Hrun. mstep.
  destruct (skill_gui_flag b
    (mkState (query_replies st) (<[p:=[]]> (query_extensions st))
             (has_played st) (gui st)) Hcb) as (v & Hv & Hget).
  erewrite bind_ok by apply Hget. mstep. rewrite Hv.
  destruct (is_bid_fields selected Hsb) as [Hsid _]. rewrite Hsid.
  unfold set_has_played, del_replies, del_extensions.
  destruct (own_gui b); cbn [negb]; mstep; rewrite Hr; cbn [present]; mstep;
    rewrite lookup_insert_eq; cbn [present]; mstep;
    by rewrite delete_insert_eq.
Qed.

Lemma select_run rnd b ts :
  Forall is_bid (ts ++ [b]) ->
  exists selected,
    selected ∈ ts ++ [b]
    /\ forall st,
         match ts with
         | [] => ret b
         | _ :: _ => skill_ids (ts ++ [b]) ;;; random_choice rnd (ts ++ [b])
         end st = mkOutcome (inr selected) st [].
Proof.
  intros Hbids. destruct ts as [|t ts].
  { exists b. split; [left | done]. }
  destruct (random_choice_some rnd ((t :: ts) ++ [b])) as [x Hx]; [done|].
  exists x. split; [by eapply list_elem_of_lookup_2|].
  intros st. erewrite bind_ok by (by apply skill_ids_bids).
  unfold random_choice. rewrite Hx. by mstep.
Qed.

(** The same replies, but the first maximal bid carries callback data that
    is not a map: the lookup of ["skill_gui"] raises before any call. *)
Lemma timeout_callback_not_map neon rnd message p st pre b post :
  Payload.phrase (data message) = Some p ->
  query_replies st !! p = Some (pre ++ b :: post) ->
  Forall is_bid (pre ++ b :: post) ->
  Forall (fun h => (confidence h < confidence b)%Q) pre ->
  Forall (fun h => (confidence h <= confidence b)%Q) post ->
  ~ callback_is_map b ->
  _play_query_timeout neon rnd message st
  = mkOutcome (inl (AttributeError "get"))
      (mkState (query_replies st) (<[p := []]> (query_extensions st))
               (has_played st) (gui st)) [].
Proof.
  intros Hp Hr Hbids Hpre Hpost Hcb.
  assert (Hb : is_bid b).
  { apply Forall_app in Hbids as [_ H]. by apply Forall_cons in H as [? _]. }
  assert (Hskills : Forall is_bid (ties_with b post ++ [b])).
  { apply Forall_app. split; [|by apply Forall_singleton].
    apply Forall_forall. intros h [Hh _]%ties_with_spec.
    rewrite Forall_forall in Hbids. apply Hbids.
    apply elem_of_app. right. by right. }
  destruct (select_run rnd b (ties_with b post) Hskills)
    as (selected & _ & Hrun).
  unfold _play_query_timeout. rewrite Hp.
  unfold set_extensions, replies_at. mstep. rewrite Hr. mstep.
  erewrite (bind_ok (scan _ _ _)) by (by apply scan_first_max). mstep.
  rewrite (is_bid_truthy b Hb). mstep.
  erewrite bind_ok by apply Hrun. mstep.
  unfold callback_is_map in Hcb.
  destruct (Payload.callback_data b) as [[]|]; try done; by cbn.
Qed.

(** The [play:start] event for a bid, field by field. *)
Lemma play_start_fields message selected p :
  is_bid selected ->
  play_start message selected p
  = BusEmit (mkMessage "play:start"
       (Payload.mk (Some p) (Payload.skill_id selected) None None
          (Some (default VNone (Payload.callback_data selected))))
       (context message)).
Proof.
  intros Hs. unfold play_start, start_data, forward.
  by destruct (is_bid_fields selected Hs) as [<- _].
Qed.

(** ** Resolution *)

(** X22: when the replies collected for the phrase are bids with exactly
    one of maximal confidence [b], whose callback data is left out or is a
    map, then in whatever order the replies arrived the timeout ends
    normally, dispatches [b] (the [play:start] event carries the skill id
    and callback data of [b] and the phrase of the session) and sets
    [has_played]. *)
Theorem unique_best_bid_wins neon rnd message p st replies b others :
  Payload.phrase (data message) = Some p ->
  query_replies st !! p = Some replies ->
  replies ≡ₚ b :: others ->
  Forall is_bid replies ->
  callback_is_map b ->
  Forall (fun h => (confidence h < confidence b)%Q) others ->
  let o := _play_query_timeout neon rnd message st in
  result o = inr tt
  /\ trace o = (if own_gui b then [] else [ShowPage "controls.qml"])
               ++ [BusEmit (mkMessage "play:start"
                     (Payload.mk (Some p) (Payload.skill_id b) None None
                        (Some (default VNone (Payload.callback_data b))))
                     (context message))]
  /\ has_played (final o) = true.
Proof.
  intros Hp Hr Hperm Hbids Hcb Hlt o.
  assert (Hin : b ∈ replies) by (rewrite Hperm; left).
  apply list_elem_of_split in Hin as (pre & post & ->).
  rewrite <- Permutation_middle in Hperm.
  apply Permutation_cons_inv in Hperm. rewrite <- Hperm in Hlt.
  apply Forall_app in Hlt as [Hpre Hpost].
  destruct (timeout_dispatch neon rnd message p st pre b post)
    as (selected & Hsel & Hrun); try done.
  { eapply Forall_impl; [exact Hpost|]. intros h. apply Qlt_le_weak. }
  rewrite ties_with_nil in Hsel by done. subst selected o. rewrite Hrun.
  assert (Hb : is_bid b).
  { apply Forall_app in Hbids as [_ H]. by apply Forall_cons in H as [? _]. }
  unfold play_start, start_data, forward.
  destruct (is_bid_fields b Hb) as [<- _]. by cbn.
Qed.

Lemma unique_best_bid_wins_witness :
  let a := sample_bid "jazz" "A" (6 # 10) None in
  let b := sample_bid "jazz" "B" (9 # 10) None in
  let o := _play_query_timeout always 0 (timeout_message "jazz")
             (session "jazz" [a; b] []) in
  result o = inr tt
  /\ trace o = [ShowPage "controls.qml";
                BusEmit (mkMessage "play:start"
                  (Payload.mk (Some "jazz") (Some "B") None None (Some VNone))
                  [])]
  /\ has_played (final o) = true.
Proof.
  intros a b.
  apply (unique_best_bid_wins always 0 (timeout_message "jazz") "jazz"
           (session "jazz" [a; b] []) [a; b] b [a]).
  - reflexivity.
  - reflexivity.
  - apply perm_swap.
  - repeat constructor; eexists; reflexivity.
  - exact I.
  - repeat constructor.
Defined.

(** C1, at a failing input: [B] is the one bid of maximal confidence and
    carries ["callback_data": None], the value the skill itself puts in
    [play:start] for a bid without callback data.  Line 307 calls [.get] on
    it: [AttributeError] leaves the handler, nothing is dispatched, and the
    replies stay in the table. *)
Example unique_best_bid_with_null_callback_raises :
  let a := sample_bid "jazz" "A" (6 # 10) None in
  let b := sample_bid "jazz" "B" (9 # 10) (Some VNone) in
  let o := _play_query_timeout always 0 (timeout_message "jazz")
             (session "jazz" [a; b] []) in
  (confidence a < confidence b)%Q
  /\ result o = inl (AttributeError "get")
  /\ trace o = []
  /\ has_played (final o) = false
  /\ query_replies (final o) !! "jazz" = Some [a; b].
Proof.
  intros a b o. split; [reflexivity|]. subst o.
  rewrite (timeout_callback_not_map always 0 (timeout_message "jazz") "jazz"
             (session "jazz" [a; b] []) [a] b []).
  - by split_and!.
  - reflexivity.
  - reflexivity.
  - repeat constructor; eexists; reflexivity.
  - repeat constructor.
  - constructor.
  - intros H. exact H.
Qed.

(** C2: when the first bid of maximal confidence is [b] and later bids tie
    with it, the scan ends with [best = b] and [ties] the later bids of equal
    confidence, in arrival order.  Whatever [random.choice] draws, the drawn
    bid is one of [ties ++ [best]], all of maximal confidence, and it is the
    bid dispatched: the one [play:start] event carries its skill id and
    callback data and the phrase.  The only run without that event is the
    one in which the callback data of [best] is not a map, which raises
    before anything is emitted. *)
Theorem tied_bids_resolution neon rnd message p st pre b post :
  Payload.phrase (data message) = Some p ->
  query_replies st !! p = Some (pre ++ b :: post) ->
  Forall is_bid (pre ++ b :: post) ->
  Forall (fun h => (confidence h < confidence b)%Q) pre ->
  Forall (fun h => (confidence h <= confidence b)%Q) post ->
  Exists (fun h => (confidence h == confidence b)%Q) post ->
  let ties :=
    List.filter (fun h => conf_eq (confidence h) (confidence b)) post in
  let o := _play_query_timeout neon rnd message st in
  (forall st', scan (pre ++ b :: post) None [] st'
               = mkOutcome (inr (Some b, ties)) st' [])
  /\ exists selected,
       (ties ++ [b]) !! (rnd mod length (ties ++ [b]))%nat = Some selected
       /\ selected ∈ ties ++ [b]
       /\ selected ∈ pre ++ b :: post
       /\ (confidence selected == confidence b)%Q
       /\ (callback_is_map b ->
           result o = inr tt
           /\ filter (fun e => is_play_start e = true) (trace o)
              = [BusEmit (mkMessage "play:start"
                   (Payload.mk (Some p) (Payload.skill_id selected) None None
                      (Some (default VNone (Payload.callback_data selected))))
                   (context message))])
       /\ (~ callback_is_map b ->
           result o = inl (AttributeError "get") /\ trace o = []).
Proof.
  intros Hp Hr Hbids Hpre Hpost Htie ties o.
  assert (Hties : ties_with b post <> []).
  { apply Exists_exists in Htie as (h & Hh & Heq).
    intros Hnil. assert (Hin : h ∈ ties_with b post) by (by apply ties_with_spec).
    rewrite Hnil in Hin. by apply not_elem_of_nil in Hin. }
  split; [intros st'; by apply scan_first_max|].
  subst ties o.
  change (List.filter _ post) with (ties_with b post).
  destruct (random_choice_some rnd (ties_with b post ++ [b])) as [selected Hsel].
  { by destruct (ties_with b post). }
  exists selected.
  assert (Hin : selected ∈ ties_with b post ++ [b])
    by (by eapply list_elem_of_lookup_2).
  assert (Hin' : selected = b \/ selected ∈ post /\
                 (confidence selected == confidence b)%Q).
  { apply elem_of_app in Hin as [Hin|Hin].
    - right. by apply (ties_with_spec b post).
    - left. by apply list_elem_of_singleton in Hin. }
  assert (Hall : selected ∈ pre ++ b :: post).
  { apply elem_of_app. right.
    destruct Hin' as [->|[Hin' _]]; [left | by right]. }
  split_and!; try done.
  - destruct Hin' as [->|[_ Heq]]; [reflexivity | done].
  - intros Hcb.
    destruct (timeout_dispatch neon rnd message p st pre b post)
      as (selected' & Hsel' & Hrun); try done.
    assert (selected' = selected) as ->.
    { destruct (ties_with b post); [done|]. cbn zeta in Hsel'. congruence. }
    rewrite Hrun. cbn [result trace]. split; [done|].
    rewrite <- play_start_fields.
    + by destruct (own_gui b).
    + rewrite Forall_forall in Hbids. by apply Hbids.
  - intros Hcb.
    by rewrite (timeout_callback_not_map neon rnd message p st pre b post).
Qed.

Lemma tied_bids_resolution_witness :
  let a := sample_bid "rock" "A" (1 # 2) None in
  let b := sample_bid "rock" "B" (9 # 10) None in
  let c := sample_bid "rock" "C" (9 # 10) None in
  let o := _play_query_timeout always 1 (timeout_message "rock")
             (session "rock" [a; b; c] []) in
  (forall st', scan [a; b; c] None [] st' = mkOutcome (inr (Some b, [c])) st' [])
  /\ exists selected,
       [c; b] !! (1 mod 2)%nat = Some selected
       /\ selected ∈ [c; b]
       /\ selected ∈ [a; b; c]
       /\ (confidence selected == confidence b)%Q
       /\ (callback_is_map b ->
           result o = inr tt
           /\ filter (fun e => is_play_start e = true) (trace o)
              = [BusEmit (mkMessage "play:start"
                   (Payload.mk (Some "rock") (Payload.skill_id selected)
                      None None
                      (Some (default VNone (Payload.callback_data selected))))
                   (context (timeout_message "rock")))])
       /\ (~ callback_is_map b ->
           result o = inl (AttributeError "get") /\ trace o = []).
Proof.
  intros a b c.
  apply (tied_bids_resolution always 1 (timeout_message "rock") "rock"
           (session "rock" [a; b; c] []) [a] b [c]).
  - reflexivity.
  - reflexivity.
  - repeat constructor; eexists; reflexivity.
  - repeat constructor.
  - repeat constructor. discriminate.
  - left. reflexivity.
Defined.

(** C3, at a failing input: [A] and [B] tie, [A] arrived first and brings its
    own presentation surface, [B] does not.  The draw selects [B]; the
    generic page is decided on [best = A] and is not shown, although the
    dispatched bid has no surface of its own. *)
Example generic_gui_follows_best_not_selected :
  let a := sample_bid "rock" "A" (1 # 2)
             (Some (VDict [("skill_gui", VBool true)])) in
  let b := sample_bid "rock" "B" (1 # 2) None in
  let o := _play_query_timeout always 0 (timeout_message "rock")
             (session "rock" [a; b] []) in
  result o = inr tt
  /\ trace o = [play_start (timeout_message "rock") b "rock"]
  /\ own_gui b = false
  /\ ShowPage "controls.qml" ∉ trace o.
Proof.
  intros a b o. repeat split.
  intros H%list_elem_of_In. vm_compute in H. by destruct H.
Qed.

(** X8: the generic page is decided on [best], the first maximal bid,
    whichever bid is dispatched: [controls.qml] is shown exactly when [best]
    carries no truthy [skill_gui] flag. *)
Lemma generic_gui_decided_on_best neon rnd message p st pre b post :
  Payload.phrase (data message) = Some p ->
  query_replies st !! p = Some (pre ++ b :: post) ->
  Forall is_bid (pre ++ b :: post) ->
  Forall (fun h => (confidence h < confidence b)%Q) pre ->
  Forall (fun h => (confidence h <= confidence b)%Q) post ->
  callback_is_map b ->
  ShowPage "controls.qml" ∈ trace (_play_query_timeout neon rnd message st)
  <-> own_gui b = false.
Proof.
  intros Hp Hr Hbids Hpre Hpost Hcb.
  destruct (timeout_dispatch neon rnd message p st pre b post)
    as (selected & _ & ->); try done.
  cbn [trace]. unfold play_start. destruct (own_gui b); cbn; split; try done.
  - intros H%list_elem_of_singleton. discriminate.
  - intros _. left.
Qed.

(** ** No replies, no session *)

Lemma timeout_without_session neon rnd message p st :
  Payload.phrase (data message) = Some p ->
  query_replies st !! p = None ->
  _play_query_timeout neon rnd message st =
    mkOutcome (inl (KeyError p))
      (mkState (query_replies st) (<[p := []]> (query_extensions st))
               (has_played st) (gui st)) [].
Proof.
  intros Hp Hr. unfold _play_query_timeout. rewrite Hp.
  unfold set_extensions, replies_at. mstep. by rewrite Hr.
Qed.

(** C7, at a failing input: the timeout fires for a phrase that has no
    session.  [self.query_replies[search_phrase]] raises [KeyError], which
    leaves the handler, and the phrase stays behind in [query_extensions]. *)
Example timeout_without_session_raises :
  let o := _play_query_timeout always 0 (timeout_message "jazz") init in
  result o = inl (KeyError "jazz")
  /\ query_extensions (final o) !! "jazz" = Some [].
Proof. by rewrite (timeout_without_session always 0 _ "jazz"). Qed.

(** C8: with no reply at the timeout, nothing is dispatched and [has_played]
    keeps its value; ["cant.play"] is spoken exactly when [neon_in_request]
    answers yes for the message; both tables lose the phrase. *)
Theorem no_replies_no_match neon rnd message p st :
  Payload.phrase (data message) = Some p ->
  query_replies st !! p = Some [] ->
  let o := _play_query_timeout neon rnd message st in
  result o = inr tt
  /\ trace o = (if neon message
                then [SpeakDialog "cant.play" (phrase_data p)] else [])
  /\ filter (fun e => is_play_start e = true) (trace o) = []
  /\ has_played (final o) = has_played st
  /\ query_replies (final o) = delete p (query_replies st)
  /\ query_extensions (final o) = delete p (query_extensions st)
  /\ query_replies (final o) !! p = None
  /\ query_extensions (final o) !! p = None.
Proof.
  intros Hp Hr o. subst o. unfold _play_query_timeout. rewrite Hp.
  unfold set_extensions, replies_at, del_replies, del_extensions.
  mstep. rewrite Hr. mstep. cbn [scan]. mstep.
  destruct (neon message); mstep; rewrite Hr; cbn [present]; mstep;
    rewrite lookup_insert_eq; cbn [present]; mstep;
    cbn [result final trace query_replies query_extensions has_played];
    rewrite delete_insert_eq, !lookup_delete_eq; by cbn.
Qed.

Lemma no_replies_no_match_witness :
  let o := _play_query_timeout always 0 (timeout_message "rock")
             (session "rock" [] []) in
  result o = inr tt
  /\ trace o = [SpeakDialog "cant.play" (phrase_data "rock")]
  /\ filter (fun e => is_play_start e = true) (trace o) = []
  /\ has_played (final o) = false
  /\ query_replies (final o) = delete "rock" {[ "rock" := [] ]}
  /\ query_extensions (final o) = delete "rock" {[ "rock" := [] ]}
  /\ query_replies (final o) !! "rock" = None
  /\ query_extensions (final o) !! "rock" = None.
Proof.
  apply (no_replies_no_match always 0 (timeout_message "rock") "rock"
           (session "rock" [] [])); reflexivity.
Defined.

(** C6: a bid (no [searching] key) for a phrase without a session changes
    nothing, calls nothing and raises nothing; a session opened for the
    phrase afterwards starts with no reply. *)
Theorem late_bid_ignored (message : Message Payload.t) p st :
  Payload.phrase (data message) = Some p ->
  Payload.searching (data message) = None ->
  query_replies st !! p = None ->
  handle_play_query_response message st = mkOutcome (inr tt) st []
  /\ forall D h (m : Message D),
       query_replies
         (final (play h m p (final (handle_play_query_response message st))))
         !! p = Some [].
Proof.
  intros Hp Hs Hr.
  assert (H : handle_play_query_response message st = mkOutcome (inr tt) st []).
  { unfold handle_play_query_response. rewrite Hp, Hs. mstep.
    cbn [present andb]. by rewrite Hr. }
  split; [done|]. intros D h m. rewrite H. cbn [final].
  unfold play, set_replies, set_extensions, schedule_event.
  destruct h; mstep; cbn; by rewrite lookup_insert_eq.
Qed.

Lemma late_bid_ignored_witness :
  let late := response (sample_bid "jazz" "A" (6 # 10) None) in
  handle_play_query_response late init = mkOutcome (inr tt) init []
  /\ forall D h (m : Message D),
       query_replies
         (final (play h m "jazz" (final (handle_play_query_response late init))))
         !! "jazz" = Some [].
Proof.
  apply (late_bid_ignored
           (response (sample_bid "jazz" "A" (6 # 10) None)) "jazz" init);
    reflexivity.
Defined.

(** ** Track information *)

Lemma differs_true g d k :
  differs g d k = true <-> g !! k <> Some (status_val d k).
Proof.
  unfold differs. destruct (g !! k) as [old|]; [|done].
  rewrite negb_true_iff, String.eqb_neq. split; congruence.
Qed.

Lemma differs_insert_ne g d k k' v :
  k <> k' -> differs (<[k := v]> g) d k' = differs g d k'.
Proof. intros H. unfold differs. by rewrite lookup_insert_ne. Qed.

Lemma song_info_loop_spec d keys : NoDup keys -> forall changed st,
  song_info_loop d keys changed st =
    mkOutcome (inr (changed || existsb (differs (gui st) d) keys))
      (mkState (query_replies st) (query_extensions st) (has_played st)
               (update_gui d (gui st) keys)) [].
Proof.
  induction 1 as [|key keys Hkey _ IH]; intros changed st.
  - cbn. rewrite orb_false_r. by destruct st.
  - cbn [song_info_loop existsb update_gui foldl].
    assert (Htry : try_except_KeyError
              (if changed then ret true
               else old <- gui_at key ;;
                    ret (negb (String.eqb old (default "" (d !! key)))))
              (ret true) st
            = mkOutcome (inr (changed || differs (gui st) d key)) st []).
    { unfold try_except_KeyError, gui_at, differs, status_val.
      destruct changed; [done|]. mstep. by destruct (gui st !! key). }
    erewrite bind_ok by apply Htry. unfold set_gui. mstep.
    rewrite IH. cbn [gui query_replies query_extensions has_played].
    f_equal. f_equal. rewrite <- orb_assoc. f_equal. f_equal.
    clear -Hkey. induction keys as [|k keys IH]; [done|].
    apply not_elem_of_cons in Hkey as [Hne Hkey]. cbn.
    by rewrite differs_insert_ne, IH.
Qed.

Lemma update_gui_status d g k :
  k ∈ STATUS_KEYS -> update_gui d g STATUS_KEYS !! k = Some (status_val d k).
Proof.
  unfold STATUS_KEYS, update_gui. cbn [foldl]. intros H.
  repeat (apply elem_of_cons in H as [->|H]; [by simplify_map_eq|]).
  by apply not_elem_of_nil in H.
Qed.

Lemma handle_song_info_run message st :
  handle_song_info message st =
    mkOutcome (inr tt)
      (mkState (query_replies st) (query_extensions st) (has_played st)
               (update_gui (data message) (gui st) STATUS_KEYS))
      (if existsb (differs (gui st) (data message)) STATUS_KEYS
       then [LogInfo (nl +:+ "-->Track: " +:+ status_val (data message) "track"
                      +:+ nl +:+ "-->Artist: "
                      +:+ status_val (data message) "artist"
                      +:+ nl +:+ "-->Image: "
                      +:+ status_val (data message) "image")]
       else []).
Proof.
  unfold handle_song_info.
  erewrite bind_ok by (apply song_info_loop_spec; by compute_done).
  cbn [orb]. destruct (existsb _ _); [|by mstep].
  unfold gui_at.
  repeat (mstep; rewrite update_gui_status by (unfold STATUS_KEYS; set_solver)).
  by mstep.
Qed.


(** ** The response handler, branch by branch *)

Lemma with_extensions_same st p exts :
  query_extensions st !! p = Some exts -> with_extensions st p exts = st.
Proof.
  intros H. unfold with_extensions. rewrite insert_id by done. by destruct st.
Qed.

(** [searching] is true: the timer is pushed out, the provider noted once. *)
Lemma response_still_searching message p sid exts st :
  Payload.phrase (data message) = Some p ->
  Payload.skill_id (data message) = Some sid ->
  Payload.searching (data message) = Some true ->
  query_extensions st !! p = Some exts ->
  handle_play_query_response message st =
    mkOutcome (inr tt)
      (with_extensions st p (if contains sid exts then exts else exts ++ [sid]))
      (reschedule 5 p).
Proof.
  intros Hp Hsid Hs Hx. unfold handle_play_query_response.
  rewrite Hp, Hsid, Hs. mstep. rewrite Hx. cbn [present andb]. mstep.
  unfold cancel_scheduled_event, schedule_event, extensions_at,
    extensions_append, set_extensions.
  mstep. rewrite Hx. mstep.
  destruct (contains sid exts); cbn [negb]; mstep.
  - by rewrite with_extensions_same.
  - unfold extensions_at. mstep. rewrite Hx. by mstep.
Qed.

(** The provider is taken off the extension list; when that empties the
    list, the timer is rescheduled at [when]. *)
Lemma drop_extension when p sid exts rest st :
  query_extensions st !! p = Some exts ->
  remove sid exts = inr rest ->
  (extensions_remove p sid ;;;
   exts <- extensions_at p ;;
   match exts with
   | [] => cancel_scheduled_event ;;; schedule_event when p
   | _ :: _ => ret tt
   end) st =
    mkOutcome (inr tt) (with_extensions st p rest)
      (match rest with [] => reschedule when p | _ :: _ => [] end).
Proof.
  intros Hx Hrm.
  unfold extensions_remove, extensions_at, set_extensions,
    cancel_scheduled_event, schedule_event.
  mstep. rewrite Hx. mstep. rewrite Hrm. cbn [lift]. mstep.
  rewrite lookup_insert_eq. mstep. by destruct rest; mstep.
Qed.

(** [searching] is false. *)
Lemma response_done_searching message p sid exts st :
  Payload.phrase (data message) = Some p ->
  Payload.skill_id (data message) = Some sid ->
  Payload.searching (data message) = Some false ->
  query_extensions st !! p = Some exts ->
  handle_play_query_response message st =
    match remove sid exts with
    | inr rest =>
        mkOutcome (inr tt) (with_extensions st p rest)
          (match rest with [] => reschedule 1 p | _ :: _ => [] end)
    | inl _ => mkOutcome (inr tt) st []
    end.
Proof.
  intros Hp Hsid Hs Hx. unfold handle_play_query_response.
  rewrite Hp, Hsid, Hs. mstep. rewrite Hx. cbn [present andb]. mstep.
  unfold extensions_at at 1. mstep. rewrite Hx. mstep.
  destruct (contains sid exts) eqn:Hc.
  - destruct (remove_contains _ _ Hc) as [rest Hrm]. rewrite Hrm.
    by eapply drop_extension.
  - destruct (remove sid exts) as [|rest] eqn:Hrm; [by mstep|].
    apply contains_false in Hc. destruct Hc. by eapply remove_elem.
Qed.

(** A message that is recorded as a bid. *)
Lemma response_bid message p rs st :
  Payload.phrase (data message) = Some p ->
  present (Payload.searching (data message))
    && present (query_extensions st !! p) = false ->
  query_replies st !! p = Some rs ->
  handle_play_query_response message st =
    let st1 := with_replies st p (rs ++ [data message]) in
    match Payload.skill_id (data message) with
    | None => mkOutcome (inl (KeyError "skill_id")) st1 []
    | Some sid =>
        match query_extensions st !! p with
        | None => mkOutcome (inl (KeyError p)) st1 []
        | Some exts =>
            match remove sid exts with
            | inr rest =>
                mkOutcome (inr tt) (with_extensions st1 p rest)
                  (match rest with [] => reschedule 0 p | _ :: _ => [] end)
            | inl _ => mkOutcome (inr tt) st1 []
            end
        end
    end.
Proof.
  intros Hp Hc Hr. unfold handle_play_query_response.
  rewrite Hp. mstep. rewrite Hc, Hr. cbn [present]. mstep.
  unfold replies_append, replies_at, set_replies. mstep. rewrite Hr. mstep.
  cbn zeta. unfold with_replies.
  destruct (Payload.skill_id (data message)) as [sid|]; [|by mstep]. mstep.
  unfold extensions_at at 1. mstep.
  destruct (query_extensions st !! p) as [exts|] eqn:Hx; [|by mstep]. mstep.
  destruct (contains sid exts) eqn:Hcn.
  - destruct (remove_contains _ _ Hcn) as [rest Hrm]. rewrite Hrm.
    by eapply drop_extension.
  - destruct (remove sid exts) as [|rest] eqn:Hrm; [by mstep|].
    apply contains_false in Hcn. destruct Hcn. by eapply remove_elem.
Qed.

(** Anything else with a phrase is dropped. *)
Lemma response_dropped message p st :
  Payload.phrase (data message) = Some p ->
  present (Payload.searching (data message))
    && present (query_extensions st !! p) = false ->
  query_replies st !! p = None ->
  handle_play_query_response message st = mkOutcome (inr tt) st [].
Proof.
  intros Hp Hc Hr. unfold handle_play_query_response.
  rewrite Hp. mstep. rewrite Hc, Hr. by cbn.
Qed.

(** ** The invariant *)

Lemma final_bind {A B} (m : M A) (k : A -> M B) st :
  final (bind m k st) =
    match result (m st) with
    | inl _ => final (m st)
    | inr a => final (k a (final (m st)))
    end.
Proof. unfold bind. by destruct (result (m st)). Qed.

Lemma result_bind {A B} (m : M A) (k : A -> M B) st :
  result (bind m k st) =
    match result (m st) with
    | inl e => inl e
    | inr a => result (k a (final (m st)))
    end.
Proof. unfold bind. by destruct (result (m st)). Qed.

Lemma keeps_ret {A} (a : A) : keeps_tables (ret a).
Proof. by intros st. Qed.

Lemma keeps_raise {A} e : keeps_tables (@raise A e).
Proof. by intros st. Qed.

Lemma keeps_call e : keeps_tables (call e).
Proof. by intros st. Qed.

Lemma keeps_getitem {A} key (f : option A) : keeps_tables (getitem key f).
Proof. by destruct f. Qed.

Lemma keeps_set_has_played b : keeps_tables (set_has_played b).
Proof. by intros st. Qed.

Lemma keeps_bind {A B} (m : M A) (k : A -> M B) :
  keeps_tables m -> (forall a, keeps_tables (k a)) -> keeps_tables (bind m k).
Proof.
  intros Hm Hk st. rewrite final_bind. destruct (result (m st)) as [e|a].
  - apply Hm.
  - destruct (Hk a (final (m st))) as [-> ->]. apply Hm.
Qed.

Lemma keeps_if {A} (c : bool) (m1 m2 : M A) :
  keeps_tables m1 -> keeps_tables m2 -> keeps_tables (if c then m1 else m2).
Proof. by destruct c. Qed.

Create HintDb keeps.
#[local] Hint Resolve keeps_ret keeps_raise keeps_call keeps_getitem
  keeps_set_has_played keeps_bind keeps_if : keeps.

Lemma keeps_scan handlers : forall best ties, keeps_tables (scan handlers best ties).
Proof.
  induction handlers as [|h rest IH]; intros best ties; cbn [scan];
    [auto with keeps|].
  do 2 (apply keeps_bind; [auto with keeps | intros ?]).
  destruct best as [b|]; [|done].
  apply keeps_if; [done|].
  do 2 (apply keeps_bind; [auto with keeps | intros ?]).
  apply keeps_if; [done|].
  do 2 (apply keeps_bind; [auto with keeps | intros ?]).
  by apply keeps_if.
Qed.

Lemma keeps_skill_ids skills : keeps_tables (skill_ids skills).
Proof. induction skills; cbn [skill_ids]; auto 6 with keeps. Qed.

Lemma keeps_random_choice {A} rnd (l : list A) :
  keeps_tables (random_choice rnd l).
Proof. unfold random_choice. destruct (l !! _); auto with keeps. Qed.

Lemma keeps_value_get v key dflt : keeps_tables (value_get v key dflt).
Proof. destruct v; cbn; auto with keeps. Qed.

#[local] Hint Resolve keeps_scan keeps_skill_ids keeps_random_choice
  keeps_value_get : keeps.

Lemma inv_tables st st' :
  query_replies st' = query_replies st ->
  query_extensions st' = query_extensions st ->
  inv st -> inv st'.
Proof. unfold inv. by intros -> ->. Qed.

Lemma inv_with_extensions st p exts :
  NoDup exts -> inv st -> inv (with_extensions st p exts).
Proof.
  intros Hnd [Hkeys Hdup]. split; cbn.
  - intros q Hq. destruct (decide (p = q)) as [->|Hne].
    + rewrite lookup_insert_eq. eauto.
    + rewrite lookup_insert_ne by done. auto.
  - intros q l. destruct (decide (p = q)) as [->|Hne].
    + rewrite lookup_insert_eq. by intros [= <-].
    + rewrite lookup_insert_ne by done. apply Hdup.
Qed.

Lemma inv_with_replies st p rs :
  is_Some (query_extensions st !! p) -> inv st -> inv (with_replies st p rs).
Proof.
  intros Hp [Hkeys Hdup]. split; cbn; [|done].
  intros q. destruct (decide (p = q)) as [->|Hne]; [done|].
  rewrite lookup_insert_ne by done. auto.
Qed.

Lemma inv_delete st p :
  inv st ->
  inv (mkState (delete p (query_replies st)) (delete p (query_extensions st))
               (has_played st) (gui st)).
Proof.
  intros [Hkeys Hdup]. split; cbn.
  - intros q. destruct (decide (p = q)) as [->|Hne].
    + rewrite lookup_delete_eq. by intros [? ?].
    + rewrite !lookup_delete_ne by done. auto.
  - intros q l. destruct (decide (p = q)) as [->|Hne].
    + by rewrite lookup_delete_eq.
    + rewrite lookup_delete_ne by done. apply Hdup.
Qed.

Lemma inv_init : inv init.
Proof. split; cbn; [intros p [? H] | intros p l H]; by rewrite lookup_empty in H. Qed.

Lemma play_final {D} h (m : Message D) p st :
  final (play h m p st) = with_extensions (with_replies st p []) p []
  /\ result (play h m p st) = inr tt.
Proof.
  unfold play, set_replies, set_extensions, schedule_event.
  by destruct h; mstep.
Qed.

Lemma play_inv {D} h (m : Message D) p st : inv st -> inv (final (play h m p st)).
Proof.
  intros [Hkeys Hdup]. destruct (play_final h m p st) as [-> _]. split; cbn.
  - intros q. destruct (decide (p = q)) as [->|Hne].
    + rewrite !lookup_insert_eq. eauto.
    + rewrite !lookup_insert_ne by done. auto.
  - intros q l. destruct (decide (p = q)) as [->|Hne].
    + rewrite lookup_insert_eq. intros [= <-]. constructor.
    + rewrite lookup_insert_ne by done. apply Hdup.
Qed.

Lemma response_inv message st :
  inv st -> inv (final (handle_play_query_response message st)).
Proof.
  intros Hinv.
  destruct (Payload.phrase (data message)) as [p|] eqn:Hp; cycle 1.
  { unfold handle_play_query_response. by rewrite Hp. }
  destruct (present (Payload.searching (data message))
            && present (query_extensions st !! p)) eqn:Hc.
  - apply andb_true_iff in Hc as [Hs Hx].
    destruct (Payload.searching (data message)) as [s|] eqn:Hs'; [|done].
    destruct (query_extensions st !! p) as [exts|] eqn:Hx'; [|done].
    assert (Hnd : NoDup exts) by (by eapply (proj2 Hinv)).
    destruct (Payload.skill_id (data message)) as [sid|] eqn:Hsid; cycle 1.
    { unfold handle_play_query_response. rewrite Hp, Hs', Hsid. mstep.
      rewrite Hx'. by cbn. }
    destruct s.
    + rewrite (response_still_searching message p sid exts) by done.
      apply inv_with_extensions; [|done].
      destruct (contains sid exts) eqn:E; [done|].
      apply contains_false in E. apply NoDup_app. repeat split; [done| |].
      * intros x Hx1 ->%list_elem_of_singleton. done.
      * apply NoDup_singleton.
    + rewrite (response_done_searching message p sid exts) by done.
      destruct (remove sid exts) as [|rest] eqn:Hrm; [done|].
      apply inv_with_extensions; [|done]. by eapply remove_NoDup.
  - destruct (query_replies st !! p) as [rs|] eqn:Hr; cycle 1.
    { by rewrite (response_dropped message p). }
    rewrite (response_bid message p rs) by done. cbn zeta.
    destruct (proj1 Hinv p) as [exts Hx]; [by rewrite Hr|].
    assert (Hinv1 : inv (with_replies st p (rs ++ [data message]))).
    { apply inv_with_replies; [by rewrite Hx | done]. }
    rewrite Hx.
    destruct (Payload.skill_id (data message)) as [sid|]; [|done].
    destruct (remove sid exts) as [|rest] eqn:Hrm; [done|].
    apply inv_with_extensions; [|done].
    eapply remove_NoDup; [done|]. by eapply (proj2 Hinv).
Qed.

(** The tables after [_play_query_timeout]: untouched when the message has no
    phrase; otherwise the phrase has lost both entries, or an exception left
    its extension list emptied and the replies as they were. *)
Lemma timeout_tables neon rnd message st :
  let o := _play_query_timeout neon rnd message st in
  match Payload.phrase (data message) with
  | None => final o = st
  | Some p =>
      (is_Some (result_error o)
       /\ query_replies (final o) = query_replies st
       /\ query_extensions (final o) = <[p := []]> (query_extensions st))
      \/ (result o = inr tt
          /\ query_replies (final o) = delete p (query_replies st)
          /\ query_extensions (final o) = delete p (query_extensions st))
  end.
Proof.
  intros o. subst o. unfold _play_query_timeout.
  destruct (Payload.phrase (data message)) as [p|]; [|done].
  unfold set_extensions, replies_at, result_error. mstep.
  destruct (query_replies st !! p) as [rs|] eqn:Hr; [|left; by cbn; eauto].
  mstep.
  set (st1 := mkState _ _ _ _).
  rewrite final_bind, result_bind.
  destruct (keeps_scan rs None [] st1) as [Hsr Hsx].
  destruct (result (scan rs None [] st1)) as [e|[best ties]] eqn:Hscan.
  { left. rewrite Hsr, Hsx. by cbn; eauto. }
  rewrite final_bind, result_bind.
  set (mid := match best with Some _ => _ | None => _ end).
  assert (Hmid : keeps_tables mid).
  { subst mid. destruct best as [b|]; [|auto with keeps].
    apply keeps_if; [|auto with keeps].
    apply keeps_bind; [destruct ties; auto 6 with keeps|]. intros selected.
    auto 10 with keeps. }
  destruct (Hmid (final (scan rs None [] st1))) as [Hmr Hmx].
  rewrite Hsr in Hmr. rewrite Hsx in Hmx.
  destruct (result (mid _)) as [e|[]].
  { left. rewrite Hmr, Hmx. by cbn; eauto. }
  right. unfold del_replies, del_extensions.
  set (st2 := final (mid _)) in *. clearbody st2. subst st1.
  cbn [query_replies query_extensions] in Hmr, Hmx. mstep.
  rewrite Hmr, Hr. cbn [present]. mstep.
  rewrite Hmx, lookup_insert_eq. cbn [present]. mstep.
  cbn [result final query_replies query_extensions].
  by rewrite ?Hmr, ?Hmx, ?delete_insert_eq.
Qed.

Lemma timeout_inv neon rnd message st :
  inv st -> inv (final (_play_query_timeout neon rnd message st)).
Proof.
  intros Hinv. pose proof (timeout_tables neon rnd message st) as H.
  cbn zeta in H. destruct (Payload.phrase (data message)) as [p|].
  - destruct H as [(_ & Hr & Hx)|(_ & Hr & Hx)].
    + eapply (inv_tables (with_extensions st p [])); [done..|].
      apply inv_with_extensions; [constructor | done].
    + eapply (inv_tables (mkState (delete p (query_replies st))
                (delete p (query_extensions st)) (has_played st) (gui st)));
        [done..|]. by apply inv_delete.
  - by rewrite H.
Qed.

Lemma song_info_inv message st : inv st -> inv (final (handle_song_info message st)).
Proof. rewrite handle_song_info_run. by apply inv_tables. Qed.

Lemma reachable_inv neon st : reachable neon st -> inv st.
Proof.
  induction 1 as [|st o _ IH]; [apply inv_init|].
  destruct o; cbn [run_op].
  - by apply play_inv.
  - by apply response_inv.
  - by apply timeout_inv.
  - by apply song_info_inv.
Qed.



(** ** Extensions of the collection window *)

(** C5: an extension signal with [searching] true for a phrase with an open
    session cancels the pending timeout and schedules it again 5 units out,
    and appends the skill id to the session's extension list unless it is
    already there; the list has no duplicate before or after. *)
Theorem still_searching_extends neon message p sid st :
  reachable neon st ->
  session_open st p ->
  Payload.phrase (data message) = Some p ->
  Payload.skill_id (data message) = Some sid ->
  Payload.searching (data message) = Some true ->
  let o := handle_play_query_response message st in
  exists exts,
    query_extensions st !! p = Some exts
    /\ NoDup exts
    /\ result o = inr tt
    /\ trace o = [CancelScheduledEvent TIMEOUT;
                  ScheduleEvent TIMEOUT 5 (phrase_data p)]
    /\ (forall pending,
          timer_after TIMEOUT (trace o) pending = Some (5, phrase_data p))
    /\ query_extensions (final o) !! p
       = Some (if contains sid exts then exts else exts ++ [sid])
    /\ NoDup (if contains sid exts then exts else exts ++ [sid])
    /\ query_replies (final o) = query_replies st
    /\ has_played (final o) = has_played st.
Proof.
  intros Hreach Hopen Hp Hsid Hs o. subst o.
  pose proof (reachable_inv neon st Hreach) as Hinv.
  destruct (proj1 Hinv p Hopen) as [exts Hx]. exists exts.
  assert (Hnd : NoDup exts) by (by eapply (proj2 Hinv)).
  rewrite (response_still_searching message p sid exts) by done.
  cbn [result trace final with_extensions query_extensions query_replies
       has_played].
  rewrite lookup_insert_eq. repeat split; try done.
  destruct (contains sid exts) eqn:E; [done|].
  apply contains_false in E. apply NoDup_app. repeat split; [done| |].
  - intros x Hx1 ->%list_elem_of_singleton. done.
  - apply NoDup_singleton.
Qed.

Lemma still_searching_extends_witness :
  let st := final (run_op always (Play false (response Payload.empty) "news")
                     init) in
  let o := handle_play_query_response
             (response (sample_signal "news" "A" true)) st in
  exists exts,
    query_extensions st !! "news" = Some exts
    /\ NoDup exts
    /\ result o = inr tt
    /\ trace o = [CancelScheduledEvent TIMEOUT;
                  ScheduleEvent TIMEOUT 5 (phrase_data "news")]
    /\ (forall pending,
          timer_after TIMEOUT (trace o) pending = Some (5, phrase_data "news"))
    /\ query_extensions (final o) !! "news"
       = Some (if contains "A" exts then exts else exts ++ ["A"])
    /\ NoDup (if contains "A" exts then exts else exts ++ ["A"])
    /\ query_replies (final o) = query_replies st
    /\ has_played (final o) = has_played st.
Proof.
  intros st.
  apply (still_searching_extends always
           (response (sample_signal "news" "A" true)) "news" "A" st).
  - apply reachable_step, reachable_init.
  - eexists. reflexivity.
  - reflexivity.
  - reflexivity.
  - reflexivity.
Defined.

(** C4: a [searching] false signal or a final bid from a provider on the
    extension list of an open session takes it off the list.  When it was the
    only one there, the timeout is cancelled and scheduled again, 1 unit out
    for the signal and 0 for the bid; when others remain no timer call is
    made.  Either way nothing is dispatched and the session stays open. *)
Theorem last_extension_holder_reschedules message p sid exts rs st :
  Payload.phrase (data message) = Some p ->
  Payload.skill_id (data message) = Some sid ->
  Payload.searching (data message) <> Some true ->
  query_replies st !! p = Some rs ->
  query_extensions st !! p = Some exts ->
  sid ∈ exts ->
  let o := handle_play_query_response message st in
  let when := match Payload.searching (data message) with
              | Some _ => 1 | None => 0 end in
  exists rest,
    remove sid exts = inr rest
    /\ result o = inr tt
    /\ query_extensions (final o) !! p = Some rest
    /\ (exts = [sid] ->
        rest = []
        /\ trace o = [CancelScheduledEvent TIMEOUT;
                      ScheduleEvent TIMEOUT when (phrase_data p)]
        /\ forall pending,
             timer_after TIMEOUT (trace o) pending = Some (when, phrase_data p))
    /\ (exts <> [sid] ->
        rest <> [] /\ trace o = []
        /\ forall pending, timer_after TIMEOUT (trace o) pending = pending)
    /\ query_replies (final o) !! p
       = Some (match Payload.searching (data message) with
               | Some _ => rs | None => rs ++ [data message] end)
    /\ has_played (final o) = has_played st
    /\ filter (fun e => is_play_start e = true) (trace o) = [].
Proof.
  intros Hp Hsid Hs Hr Hx Hin o when. subst o when.
  apply contains_true in Hin. destruct (remove_contains _ _ Hin) as [rest Hrm].
  exists rest. split; [done|].
  assert (Hlast : exts = [sid] <-> rest = []).
  { split; intros H.
    - apply (remove_last sid) in H. rewrite Hrm in H. by injection H.
    - subst rest. by apply remove_last. }
  destruct (Payload.searching (data message)) as [[]|] eqn:Hs'; [done| |].
  - rewrite (response_done_searching message p sid exts) by done.
    rewrite Hrm. cbn [result trace final with_extensions query_extensions
                      query_replies has_played].
    rewrite lookup_insert_eq. split_and!; try done.
    + intros Hone. apply Hlast in Hone as ->. by split_and!.
    + intros Hmany.
      assert (Hrest : rest <> []) by (intros Hnil; apply Hmany, Hlast, Hnil).
      destruct rest; [done|]. by split_and!.
    + by destruct rest.
  - rewrite (response_bid message p rs) by (by rewrite ?Hs'). cbn zeta.
    rewrite Hsid, Hx, Hrm.
    cbn [result trace final with_extensions with_replies query_extensions
         query_replies has_played].
    rewrite !lookup_insert_eq. split_and!; try done.
    + intros Hone. apply Hlast in Hone as ->. by split_and!.
    + intros Hmany.
      assert (Hrest : rest <> []) by (intros Hnil; apply Hmany, Hlast, Hnil).
      destruct rest; [done|]. by split_and!.
    + by destruct rest.
Qed.

Lemma last_extension_holder_reschedules_witness :
  let message := response (sample_signal "news" "A" false) in
  let o := handle_play_query_response message (session "news" [] ["A"]) in
  exists rest,
    remove "A" ["A"] = inr rest
    /\ result o = inr tt
    /\ query_extensions (final o) !! "news" = Some rest
    /\ (["A"] = ["A"] ->
        rest = []
        /\ trace o = [CancelScheduledEvent TIMEOUT;
                      ScheduleEvent TIMEOUT 1 (phrase_data "news")]
        /\ forall pending,
             timer_after TIMEOUT (trace o) pending = Some (1, phrase_data "news"))
    /\ (["A"] <> ["A"] ->
        rest <> [] /\ trace o = []
        /\ forall pending, timer_after TIMEOUT (trace o) pending = pending)
    /\ query_replies (final o) !! "news" = Some []
    /\ has_played (final o) = false
    /\ filter (fun e => is_play_start e = true) (trace o) = [].
Proof.
  intros message.
  apply (last_extension_holder_reschedules message "news" "A" ["A"] []
           (session "news" [] ["A"])).
  - reflexivity.
  - reflexivity.
  - discriminate.
  - reflexivity.
  - reflexivity.
  - left.
Defined.

(** ** Two runs from start to end *)

(** Provider [A] asks for time, then gives up without a bid: the timeout is
    pushed to 5, pulled back to 1, and finds no match. *)
Example scenario_news :
  let m := response Payload.empty in
  let '(st, tr) :=
    run_ops always
      [Play false m "news";
       QueryResponse (response (sample_signal "news" "A" true));
       QueryResponse (response (sample_signal "news" "A" false));
       QueryTimeout 0 (timeout_message "news")] init in
  tr = [BusEmit (forward m "play:query" (phrase_data "news"));
        ScheduleEvent TIMEOUT 1 (phrase_data "news");
        CancelScheduledEvent TIMEOUT;
        ScheduleEvent TIMEOUT 5 (phrase_data "news");
        CancelScheduledEvent TIMEOUT;
        ScheduleEvent TIMEOUT 1 (phrase_data "news");
        SpeakDialog "cant.play" (phrase_data "news")]
  /\ query_replies st = ∅ /\ query_extensions st = ∅
  /\ has_played st = false.
Proof. by vm_compute. Qed.

(** [A] bids 0.6, [B] bids 0.9: [B] is started. *)
Example scenario_jazz :
  let m := response Payload.empty in
  let '(st, tr) :=
    run_ops always
      [Play false m "jazz";
       QueryResponse (response (sample_bid "jazz" "A" (6 # 10) None));
       QueryResponse (response (sample_bid "jazz" "B" (9 # 10) None));
       QueryTimeout 0 (timeout_message "jazz")] init in
  tr = [BusEmit (forward m "play:query" (phrase_data "jazz"));
        ScheduleEvent TIMEOUT 1 (phrase_data "jazz");
        ShowPage "controls.qml";
        play_start (timeout_message "jazz")
          (sample_bid "jazz" "B" (9 # 10) None) "jazz"]
  /\ query_replies st = ∅ /\ query_extensions st = ∅
  /\ has_played st = true.
Proof. by vm_compute. Qed.

(** * Further properties of the handlers *)

(** ** Computations that change nothing *)

Lemma trace_bind {A B} (m : M A) (k : A -> M B) st :
  trace (bind m k st) =
    match result (m st) with
    | inl _ => trace (m st)
    | inr a => trace (m st) ++ trace (k a (final (m st)))
    end.
Proof. unfold bind. by destruct (result (m st)). Qed.

Lemma silent_ret {A} (a : A) : silent (ret a).
Proof. by intros st. Qed.

Lemma silent_raise {A} e : silent (@raise A e).
Proof. by intros st. Qed.

Lemma silent_getitem {A} key (f : option A) : silent (getitem key f).
Proof. by destruct f. Qed.

Lemma silent_bind {A B} (m : M A) (k : A -> M B) :
  silent m -> (forall a, silent (k a)) -> silent (bind m k).
Proof.
  intros Hm Hk st. rewrite final_bind, trace_bind.
  destruct (Hm st) as [Hf Ht]. destruct (result (m st)) as [e|a]; [done|].
  rewrite Hf, Ht. apply Hk.
Qed.

Lemma silent_if {A} (c : bool) (m1 m2 : M A) :
  silent m1 -> silent m2 -> silent (if c then m1 else m2).
Proof. by destruct c. Qed.

Create HintDb silent.
#[local] Hint Resolve silent_ret silent_raise silent_getitem silent_bind
  silent_if : silent.

Lemma silent_scan handlers : forall best ties, silent (scan handlers best ties).
Proof.
  induction handlers as [|h rest IH]; intros best ties; cbn [scan];
    [auto with silent|].
  do 2 (apply silent_bind; [auto with silent | intros ?]).
  destruct best as [b|]; [|done].
  apply silent_if; [done|].
  do 2 (apply silent_bind; [auto with silent | intros ?]).
  apply silent_if; [done|].
  do 2 (apply silent_bind; [auto with silent | intros ?]).
  by apply silent_if.
Qed.

Lemma silent_skill_ids skills : silent (skill_ids skills).
Proof. induction skills; cbn [skill_ids]; auto 6 with silent. Qed.

Lemma silent_random_choice {A} rnd (l : list A) : silent (random_choice rnd l).
Proof. unfold random_choice. destruct (l !! _); auto with silent. Qed.

Lemma silent_value_get v key dflt : silent (value_get v key dflt).
Proof. destruct v; cbn; auto with silent. Qed.

Lemma silent_replies_at p : silent (replies_at p).
Proof. intros st. unfold replies_at. mstep. by destruct (query_replies st !! p). Qed.

#[local] Hint Resolve silent_scan silent_skill_ids silent_random_choice
  silent_value_get silent_replies_at : silent.

(** A silent computation run first only decides how the rest goes. *)
Lemma bind_silent {A B} (m : M A) (k : A -> M B) st :
  silent m ->
  bind m k st =
    match result (m st) with
    | inl e => mkOutcome (inl e) st []
    | inr a => k a st
    end.
Proof.
  intros Hm. destruct (Hm st) as [Hf Ht]. unfold bind.
  destruct (result (m st)) as [e|a]; rewrite Hf, Ht; [done|].
  apply prepend_nil.
Qed.

(** ** What a response can and cannot do *)

Lemma remove_not_elem x l : x ∉ l -> remove x l = inl ValueError.
Proof.
  induction l as [|y l IH]; [done|]. intros [Hne Hl]%not_elem_of_cons. cbn.
  destruct (String.eqb x y) eqn:E; [by apply String.eqb_eq in E|].
  by rewrite IH.
Qed.

Lemma response_without_phrase message st :
  Payload.phrase (data message) = None ->
  handle_play_query_response message st
  = mkOutcome (inl (KeyError "phrase")) st [].
Proof. intros Hp. unfold handle_play_query_response. by rewrite Hp. Qed.

Lemma response_signal_without_skill_id message p exts st :
  Payload.phrase (data message) = Some p ->
  Payload.skill_id (data message) = None ->
  is_Some (Payload.searching (data message)) ->
  query_extensions st !! p = Some exts ->
  handle_play_query_response message st
  = mkOutcome (inl (KeyError "skill_id")) st [].
Proof.
  intros Hp Hsid [s Hs] Hx. unfold handle_play_query_response.
  rewrite Hp, Hsid, Hs. mstep. rewrite Hx. by cbn.
Qed.

(** Every way [handle_play_query_response] can leave the state: as it was,
    or with the message appended to the replies of its phrase, and in either
    case possibly with the extension list of that phrase replaced; the trace
    is empty or one reschedule. *)
Lemma response_shape message st :
  let o := handle_play_query_response message st in
  (final o = st /\ trace o = [])
  \/ exists p st1,
       Payload.phrase (data message) = Some p
       /\ (st1 = st
           \/ exists rs, query_replies st !! p = Some rs
                 /\ st1 = with_replies st p (rs ++ [data message]))
       /\ ((final o = st1 /\ trace o = [])
           \/ exists exts exts' when,
                query_extensions st !! p = Some exts
                /\ final o = with_extensions st1 p exts'
                /\ (trace o = [] \/ trace o = reschedule when p)).
Proof.
  intros o. subst o.
  destruct (Payload.phrase (data message)) as [p|] eqn:Hp; cycle 1.
  { left. by rewrite response_without_phrase. }
  destruct (present (Payload.searching (data message))
            && present (query_extensions st !! p)) eqn:Hc.
  - apply andb_true_iff in Hc as [Hs Hx].
    destruct (Payload.searching (data message)) as [s|] eqn:Hs'; [|done].
    destruct (query_extensions st !! p) as [exts|] eqn:Hx'; [|done].
    destruct (Payload.skill_id (data message)) as [sid|] eqn:Hsid; cycle 1.
    { left. by rewrite (response_signal_without_skill_id message p exts). }
    right. exists p, st. split; [done|]. split; [by left|].
    destruct s.
    + rewrite (response_still_searching message p sid exts) by done.
      right. eexists exts, _, 5. split_and!; [done..|]. by right.
    + rewrite (response_done_searching message p sid exts) by done.
      destruct (remove sid exts) as [|rest]; [by left|].
      right. eexists exts, rest, 1. split_and!; [done..|].
      destruct rest; [by right | by left].
  - destruct (query_replies st !! p) as [rs|] eqn:Hr; cycle 1.
    { left. by rewrite (response_dropped message p). }
    right. exists p, (with_replies st p (rs ++ [data message])).
    split; [done|]. split; [right; eauto|].
    rewrite (response_bid message p rs) by done. cbn zeta.
    destruct (Payload.skill_id (data message)) as [sid|]; [|by left].
    destruct (query_extensions st !! p) as [exts|] eqn:Hx; [|by left].
    destruct (remove sid exts) as [|rest]; [by left|].
    right. eexists exts, rest, 0. split_and!; [done..|].
    destruct rest; [by right | by left].
Qed.

(** X1: whatever the message and the state, [handle_play_query_response]
    only ever calls the scheduler under the timeout name, leaves [has_played]
    and the GUI cache alone, and neither opens nor closes a session: both
    tables keep their key sets. *)
Theorem response_never_resolves message st :
  let o := handle_play_query_response message st in
  Forall is_timer_call (trace o)
  /\ has_played (final o) = has_played st
  /\ gui (final o) = gui st
  /\ dom (query_replies (final o)) =@{gset string} dom (query_replies st)
  /\ dom (query_extensions (final o)) =@{gset string} dom (query_extensions st).
Proof.
  intros o. subst o.
  destruct (response_shape message st)
    as [[-> ->]|(p & st1 & Hp & Hst1 & Hfin)]; [done|].
  assert (H1 : has_played st1 = has_played st /\ gui st1 = gui st
               /\ dom (query_replies st1) =@{gset string} dom (query_replies st)
               /\ query_extensions st1 = query_extensions st).
  { destruct Hst1 as [->|(rs & Hr & ->)]; [done|]. cbn. split_and!; try done.
    apply dom_insert_lookup_L. by rewrite Hr. }
  destruct H1 as (Hhp & Hgui & Hdr & Hx).
  destruct Hfin as [[-> ->]|(exts & exts' & when & Hexts & -> & Htr)].
  - split_and!; try done. by rewrite Hx.
  - cbn. split_and!; try done.
    + destruct Htr as [->| ->]; [done|]. unfold reschedule.
      apply Forall_cons. split; [by left|].
      apply Forall_cons. split; [right; eauto | constructor].
    + rewrite Hx. apply dom_insert_lookup_L. by rewrite Hexts.
Qed.

(** X2: a message without ["phrase"] makes either handler raise [KeyError]
    on its first statement, before anything is changed or called. *)
Theorem missing_phrase_raises neon rnd message st :
  Payload.phrase (data message) = None ->
  handle_play_query_response message st
  = mkOutcome (inl (KeyError "phrase")) st []
  /\ _play_query_timeout neon rnd message st
     = mkOutcome (inl (KeyError "phrase")) st [].
Proof.
  intros Hp. split; [by apply response_without_phrase|].
  unfold _play_query_timeout. by rewrite Hp.
Qed.

Lemma missing_phrase_raises_witness :
  handle_play_query_response (response Payload.empty) init
  = mkOutcome (inl (KeyError "phrase")) init []
  /\ _play_query_timeout always 0 (response Payload.empty) init
     = mkOutcome (inl (KeyError "phrase")) init [].
Proof.
  apply (missing_phrase_raises always 0 (response Payload.empty) init).
  reflexivity.
Defined.

(** X3: a bid without ["skill_id"] for an open session is appended to the
    replies before the missing key is read: the handler raises [KeyError],
    the reply stays recorded, the extension list and the timer are not
    touched. *)
Theorem bid_without_skill_id_is_recorded message p rs st :
  Payload.phrase (data message) = Some p ->
  Payload.searching (data message) = None ->
  Payload.skill_id (data message) = None ->
  query_replies st !! p = Some rs ->
  handle_play_query_response message st
  = mkOutcome (inl (KeyError "skill_id"))
      (with_replies st p (rs ++ [data message])) [].
Proof.
  intros Hp Hs Hsid Hr.
  rewrite (response_bid message p rs) by (by rewrite ?Hs). cbn zeta.
  by rewrite Hsid.
Qed.

Lemma bid_without_skill_id_is_recorded_witness :
  let d := Payload.mk (Some "jazz") None (Some (1 # 2)) None None in
  handle_play_query_response (response d) (session "jazz" [] [])
  = mkOutcome (inl (KeyError "skill_id"))
      (with_replies (session "jazz" [] []) "jazz" [d]) [].
Proof.
  intros d.
  apply (bid_without_skill_id_is_recorded (response d) "jazz" []
           (session "jazz" [] [])); reflexivity.
Defined.

(** X4: a [searching] false signal from a provider that is not on the
    extension list of the phrase (a stop without a start) changes nothing
    and calls nothing. *)
Theorem stop_without_start_is_ignored message p sid exts st :
  Payload.phrase (data message) = Some p ->
  Payload.skill_id (data message) = Some sid ->
  Payload.searching (data message) = Some false ->
  query_extensions st !! p = Some exts ->
  sid ∉ exts ->
  handle_play_query_response message st = mkOutcome (inr tt) st [].
Proof.
  intros Hp Hsid Hs Hx Hnot.
  rewrite (response_done_searching message p sid exts) by done.
  by rewrite remove_not_elem.
Qed.

Lemma stop_without_start_is_ignored_witness :
  handle_play_query_response (response (sample_signal "news" "B" false))
    (session "news" [] ["A"])
  = mkOutcome (inr tt) (session "news" [] ["A"]) [].
Proof.
  apply (stop_without_start_is_ignored
           (response (sample_signal "news" "B" false)) "news" "B" ["A"]
           (session "news" [] ["A"])); try reflexivity.
  intros H%list_elem_of_singleton. discriminate.
Defined.

(** X5: a second [searching] true signal from the same provider leaves the
    state the first one produced and only pushes the timer out again. *)
Theorem repeated_extension_is_idempotent message p sid exts st :
  Payload.phrase (data message) = Some p ->
  Payload.skill_id (data message) = Some sid ->
  Payload.searching (data message) = Some true ->
  query_extensions st !! p = Some exts ->
  let st1 := final (handle_play_query_response message st) in
  handle_play_query_response message st1
  = mkOutcome (inr tt) st1 (reschedule 5 p).
Proof.
  intros Hp Hsid Hs Hx st1. subst st1.
  rewrite (response_still_searching message p sid exts st) by done.
  cbn [final].
  set (exts1 := if contains sid exts then exts else exts ++ [sid]).
  assert (Hin : contains sid exts1 = true).
  { subst exts1. destruct (contains sid exts) eqn:E; [done|].
    apply contains_true, elem_of_app. right. left. }
  rewrite (response_still_searching message p sid exts1); try done.
  - rewrite Hin. f_equal. unfold with_extensions. cbn.
    by rewrite insert_insert_eq.
  - cbn. by rewrite lookup_insert_eq.
Qed.

Lemma repeated_extension_is_idempotent_witness :
  let message := response (sample_signal "news" "A" true) in
  let st1 := final (handle_play_query_response message
                      (session "news" [] [])) in
  handle_play_query_response message st1
  = mkOutcome (inr tt) st1 (reschedule 5 "news").
Proof.
  intros message.
  apply (repeated_extension_is_idempotent message "news" "A" []
           (session "news" [] [])); reflexivity.
Defined.

(** X6: once [_play_query_timeout] has returned normally for a phrase, every
    response for that phrase, bid or extension signal, is dropped: nothing
    changes, nothing is called, nothing is raised. *)
Theorem late_comers_are_dropped neon rnd message late p st :
  Payload.phrase (data message) = Some p ->
  Payload.phrase (data late) = Some p ->
  result (_play_query_timeout neon rnd message st) = inr tt ->
  let st1 := final (_play_query_timeout neon rnd message st) in
  handle_play_query_response late st1 = mkOutcome (inr tt) st1 [].
Proof.
  intros Hp Hlate Hok st1. subst st1.
  pose proof (timeout_tables neon rnd message st) as H. cbn zeta in H.
  rewrite Hp in H. destruct H as [([e He] & _)|(_ & Hr & Hx)].
  { unfold result_error in He. by rewrite Hok in He. }
  apply (response_dropped late p); [done| |].
  - rewrite Hx, lookup_delete_eq. apply andb_false_r.
  - by rewrite Hr, lookup_delete_eq.
Qed.

Lemma late_comers_are_dropped_witness :
  let st1 := final (_play_query_timeout always 0 (timeout_message "rock")
                      (session "rock" [] ["A"])) in
  handle_play_query_response (response (sample_signal "rock" "A" true)) st1
  = mkOutcome (inr tt) st1 [].
Proof.
  apply (late_comers_are_dropped always 0 (timeout_message "rock")
           (response (sample_signal "rock" "A" true)) "rock"
           (session "rock" [] ["A"])); reflexivity.
Defined.

(** ** Resolution on any list of bids *)

(** Every non-empty list has a first element of maximal confidence. *)
Lemma first_max_split (rs : list Payload.t) :
  rs <> [] ->
  exists pre b post,
    rs = pre ++ b :: post
    /\ Forall (fun h => (confidence h < confidence b)%Q) pre
    /\ Forall (fun h => (confidence h <= confidence b)%Q) post.
Proof.
  induction rs as [|h t IH]; [done|]. intros _.
  destruct t as [|h' t'].
  { exists [], h, []. by split_and!. }
  destruct IH as (pre & b & post & Heq & Hpre & Hpost); [done|].
  destruct (Qlt_le_dec (confidence h) (confidence b)) as [Hlt|Hle].
  - exists (h :: pre), b, post. rewrite Heq. split_and!; [done| |done].
    by constructor.
  - exists [], h, (h' :: t'). split_and!; [done|constructor|].
    rewrite Heq. apply Forall_app. split; [|constructor].
    + eapply Forall_impl; [exact Hpre|]. intros x Hx. cbn in Hx.
      apply Qlt_le_weak in Hx. by eapply Qle_trans.
    + done.
    + eapply Forall_impl; [exact Hpost|]. intros x Hx. cbn in Hx.
      by eapply Qle_trans.
Qed.

(** X7: whenever the replies of the phrase are a non-empty list of bids
    (skill id present, confidence a number) whose callback data, where
    given, is a map, [_play_query_timeout] returns normally and emits
    exactly one [play:start]; the event carries the phrase and the skill id
    and callback data of a reply that no reply beats in confidence; the
    handler sets [has_played] and removes the session. *)
Theorem resolution_dispatches_a_maximal_bid neon rnd message p st rs :
  Payload.phrase (data message) = Some p ->
  query_replies st !! p = Some rs ->
  rs <> [] ->
  Forall is_bid rs ->
  Forall callback_is_map rs ->
  let o := _play_query_timeout neon rnd message st in
  exists selected,
    selected ∈ rs
    /\ Forall (fun h => (confidence h <= confidence selected)%Q) rs
    /\ result o = inr tt
    /\ filter (fun e => is_play_start e = true) (trace o)
       = [BusEmit (mkMessage "play:start"
            (Payload.mk (Some p) (Payload.skill_id selected) None None
               (Some (default VNone (Payload.callback_data selected))))
            (context message))]
    /\ has_played (final o) = true
    /\ query_replies (final o) = delete p (query_replies st)
    /\ query_extensions (final o) = delete p (query_extensions st).
Proof.
  intros Hp Hr Hne Hbids Hcbs o. subst o.
  destruct (first_max_split rs Hne) as (pre & b & post & -> & Hpre & Hpost).
  assert (Hcb : callback_is_map b).
  { apply Forall_app in Hcbs as [_ H]. by apply Forall_cons in H as [? _]. }
  destruct (timeout_dispatch neon rnd message p st pre b post)
    as (selected & Hsel & ->); try done.
  exists selected.
  assert (Hin : selected = b
                \/ selected ∈ post /\ (confidence selected == confidence b)%Q).
  { destruct (ties_with b post) as [|t ts] eqn:Et; [by left|].
    cbn zeta in Hsel. rewrite <- Et in Hsel.
    apply list_elem_of_lookup_2, elem_of_app in Hsel as [Hsel|Hsel].
    - right. by apply (ties_with_spec b post).
    - left. by apply list_elem_of_singleton in Hsel. }
  assert (Heq : (confidence selected == confidence b)%Q).
  { destruct Hin as [->|[_ Heq]]; [reflexivity | done]. }
  assert (Hall : selected ∈ pre ++ b :: post).
  { apply elem_of_app. right. destruct Hin as [->|[Hin _]]; [left | by right]. }
  cbn [result trace final query_replies query_extensions has_played].
  split_and!; try done.
  - apply Forall_app. split; [|constructor].
    + eapply Forall_impl; [exact Hpre|]. intros x Hx. cbn in Hx.
      rewrite Heq. by apply Qlt_le_weak.
    + rewrite Heq. apply Qle_refl.
    + eapply Forall_impl; [exact Hpost|]. intros x Hx. cbn in Hx.
      by rewrite Heq.
  - rewrite <- play_start_fields.
    + by destruct (own_gui b).
    + rewrite Forall_forall in Hbids. by apply Hbids.
Qed.

Lemma resolution_dispatches_a_maximal_bid_witness :
  let a := sample_bid "jazz" "A" (6 # 10) None in
  let b := sample_bid "jazz" "B" (9 # 10) None in
  let st := session "jazz" [a; b] [] in
  let o := _play_query_timeout always 0 (timeout_message "jazz") st in
  exists selected,
    selected ∈ [a; b]
    /\ Forall (fun h => (confidence h <= confidence selected)%Q) [a; b]
    /\ result o = inr tt
    /\ filter (fun e => is_play_start e = true) (trace o)
       = [BusEmit (mkMessage "play:start"
            (Payload.mk (Some "jazz") (Payload.skill_id selected) None None
               (Some (default VNone (Payload.callback_data selected))))
            (context (timeout_message "jazz")))]
    /\ has_played (final o) = true
    /\ query_replies (final o) = delete "jazz" (query_replies st)
    /\ query_extensions (final o) = delete "jazz" (query_extensions st).
Proof.
  intros a b st.
  apply (resolution_dispatches_a_maximal_bid always 0 (timeout_message "jazz")
           "jazz" st [a; b]).
  - reflexivity.
  - reflexivity.
  - discriminate.
  - repeat constructor; eexists; reflexivity.
  - repeat constructor.
Defined.

Lemma generic_gui_decided_on_best_witness :
  let a := sample_bid "rock" "A" (1 # 2)
             (Some (VDict [("skill_gui", VBool true)])) in
  let b := sample_bid "rock" "B" (1 # 2) None in
  ShowPage "controls.qml"
    ∈ trace (_play_query_timeout always 0 (timeout_message "rock")
               (session "rock" [a; b] []))
  <-> own_gui a = false.
Proof.
  intros a b.
  apply (generic_gui_decided_on_best always 0 (timeout_message "rock") "rock"
           (session "rock" [a; b] []) [] a [b]).
  - reflexivity.
  - reflexivity.
  - repeat constructor; eexists; reflexivity.
  - constructor.
  - repeat constructor. discriminate.
  - exact I.
Defined.

(** ** Replies that stop the resolution *)

Lemma scan_malformed rs : forall best ties st,
  match best with Some b => is_bid b | None => True end ->
  Exists (fun h => ~ is_bid h) rs ->
  exists k, (k = "conf" \/ k = "skill_id")
            /\ scan rs best ties st = mkOutcome (inl (KeyError k)) st [].
Proof.
  induction rs as [|h rest IH]; intros best ties st Hbest Hex.
  { by apply Exists_nil in Hex. }
  destruct (Payload.conf h) as [c|] eqn:Hc; cycle 1.
  { exists "conf". split; [by left|]. cbn [scan]. by rewrite Hc. }
  destruct (Payload.skill_id h) as [i|] eqn:Hi; cycle 1.
  { exists "skill_id". split; [by right|]. cbn [scan]. rewrite Hc, Hi.
    by mstep. }
  assert (Hh : is_bid h) by (split; eauto).
  apply Exists_cons in Hex as [Hex|Hex]; [done|].
  destruct best as [b|].
  - rewrite scan_cons by done.
    destruct (conf_gt _ _); [|destruct (conf_eq _ _)]; by apply IH.
  - rewrite scan_first by done. by apply IH.
Qed.

(** X9: one reply without ["conf"] or ["skill_id"] among the replies makes
    [_play_query_timeout] raise [KeyError] during the scan: nothing is
    dispatched, whatever the other bids are, the replies stay in the table
    and only the extension list of the phrase has been emptied. *)
Theorem malformed_reply_aborts_resolution neon rnd message p st rs :
  Payload.phrase (data message) = Some p ->
  query_replies st !! p = Some rs ->
  Exists (fun h => ~ is_bid h) rs ->
  exists k,
    (k = "conf" \/ k = "skill_id")
    /\ _play_query_timeout neon rnd message st
       = mkOutcome (inl (KeyError k)) (with_extensions st p []) [].
Proof.
  intros Hp Hr Hex.
  destruct (scan_malformed rs None [] (with_extensions st p []) I Hex)
    as (k & Hk & Hscan).
  exists k. split; [done|].
  unfold _play_query_timeout. rewrite Hp.
  unfold set_extensions, replies_at. mstep. rewrite Hr. mstep.
  fold (with_extensions st p []).
  unfold bind. by rewrite Hscan.
Qed.

Lemma malformed_reply_aborts_resolution_witness :
  let a := sample_bid "jazz" "A" (6 # 10) None in
  let d := Payload.mk (Some "jazz") None (Some (1 # 2)) None None in
  let st := session "jazz" [a; d] [] in
  exists k,
    (k = "conf" \/ k = "skill_id")
    /\ _play_query_timeout always 0 (timeout_message "jazz") st
       = mkOutcome (inl (KeyError k)) (with_extensions st "jazz" []) [].
Proof.
  intros a d st.
  apply (malformed_reply_aborts_resolution always 0 (timeout_message "jazz")
           "jazz" st [a; d]).
  - reflexivity.
  - reflexivity.
  - right. left. intros [[x Hx] _]. discriminate.
Defined.

(** X10: when the first bid of maximal confidence carries callback data that
    is not a map ([None], a string, a number, a list), the lookup of
    ["skill_gui"] on it raises [AttributeError]: nothing is dispatched, no
    page is shown, [has_played] and the replies are as before, and only the
    extension list of the phrase has been emptied. *)
Theorem callback_data_must_be_a_map neon rnd message p st pre b post :
  Payload.phrase (data message) = Some p ->
  query_replies st !! p = Some (pre ++ b :: post) ->
  Forall is_bid (pre ++ b :: post) ->
  Forall (fun h => (confidence h < confidence b)%Q) pre ->
  Forall (fun h => (confidence h <= confidence b)%Q) post ->
  ~ callback_is_map b ->
  _play_query_timeout neon rnd message st
  = mkOutcome (inl (AttributeError "get")) (with_extensions st p []) [].
Proof.
  intros Hp Hr Hbids Hpre Hpost Hcb.
  assert (Hb : is_bid b).
  { apply Forall_app in Hbids as [_ H]. by apply Forall_cons in H as [? _]. }
  assert (Hskills : Forall is_bid (ties_with b post ++ [b])).
  { apply Forall_app. split; [|by apply Forall_singleton].
    apply Forall_forall. intros h [Hh _]%ties_with_spec.
    rewrite Forall_forall in Hbids. apply Hbids.
    apply elem_of_app. right. by right. }
  destruct (select_run rnd b (ties_with b post) Hskills)
    as (selected & _ & Hrun).
  unfold _play_query_timeout. rewrite Hp.
  unfold set_extensions, replies_at. mstep. rewrite Hr. mstep.
  erewrite (bind_ok (scan _ _ _)) by (by apply scan_first_max). mstep.
  rewrite (is_bid_truthy b Hb). mstep.
  erewrite bind_ok by apply Hrun. mstep.
  unfold callback_is_map in Hcb.
  destruct (Payload.callback_data b) as [[]|]; try done; by cbn.
Qed.

Lemma callback_data_must_be_a_map_witness :
  let b := sample_bid "jazz" "B" (9 # 10) (Some VNone) in
  let st := session "jazz" [b] [] in
  _play_query_timeout always 0 (timeout_message "jazz") st
  = mkOutcome (inl (AttributeError "get")) (with_extensions st "jazz" []) [].
Proof.
  intros b st.
  apply (callback_data_must_be_a_map always 0 (timeout_message "jazz") "jazz"
           st [] b []).
  - reflexivity.
  - reflexivity.
  - repeat constructor; eexists; reflexivity.
  - constructor.
  - constructor.
  - intros H. exact H.
Defined.

(** ** The [has_played] flag *)

Lemma flag_silent {A} (m : M A) : silent m -> flag_follows m.
Proof. intros Hm st. destruct (Hm st) as [-> ->]. cbn. by rewrite orb_false_r. Qed.

Lemma flag_bind {A B} (m : M A) (k : A -> M B) :
  flag_follows m -> (forall a, flag_follows (k a)) -> flag_follows (bind m k).
Proof.
  intros Hm Hk st. rewrite final_bind, trace_bind.
  destruct (result (m st)) as [e|a]; [apply Hm|].
  by rewrite Hk, Hm, existsb_app, orb_assoc.
Qed.

Lemma flag_if {A} (c : bool) (m1 m2 : M A) :
  flag_follows m1 -> flag_follows m2 -> flag_follows (if c then m1 else m2).
Proof. by destruct c. Qed.

Lemma flag_call e : is_play_start e = false -> flag_follows (call e).
Proof. intros He st. cbn. by rewrite He, !orb_false_r. Qed.

(** The two last statements of a dispatch, taken together. *)
Lemma flag_dispatch {D} (message : Message D) d :
  flag_follows (call (BusEmit (forward message "play:start" d)) ;;;
                set_has_played true).
Proof. intros st. cbn. by rewrite orb_true_r. Qed.

Lemma flag_set_extensions p l : flag_follows (set_extensions p l).
Proof. intros st. cbn. by rewrite orb_false_r. Qed.

Lemma flag_del_replies p : flag_follows (del_replies p).
Proof. intros st. cbn. by rewrite orb_false_r. Qed.

Lemma flag_del_extensions p : flag_follows (del_extensions p).
Proof. intros st. cbn. by rewrite orb_false_r. Qed.

Lemma silent_get : silent get.
Proof. by intros st. Qed.

Lemma flag_timeout neon rnd message :
  flag_follows (_play_query_timeout neon rnd message).
Proof.
  unfold _play_query_timeout.
  apply flag_bind; [apply flag_silent, silent_getitem | intros p].
  apply flag_bind; [apply flag_set_extensions | intros _].
  apply flag_bind; [apply flag_silent, silent_replies_at | intros handlers].
  apply flag_bind; [apply flag_silent, silent_scan | intros [best ties]].
  assert (Hnone : flag_follows
            (if neon message
             then call (SpeakDialog "cant.play" (phrase_data p)) else ret tt)).
  { apply flag_if; [by apply flag_call | apply flag_silent, silent_ret]. }
  apply flag_bind.
  - destruct best as [b|]; [|done]. apply flag_if; [|done].
    apply flag_bind; [|intros selected].
    { apply flag_silent. destruct ties; auto with silent. }
    apply flag_bind; [apply flag_silent, silent_value_get | intros skill_gui].
    apply flag_bind; [|intros _].
    { apply flag_if; [by apply flag_call | apply flag_silent, silent_ret]. }
    apply flag_bind; [apply flag_silent, silent_getitem | intros _].
    apply flag_bind; [apply flag_silent, silent_getitem | intros sid].
    apply flag_dispatch.
  - intros _.
    apply flag_bind; [apply flag_silent, silent_get | intros st0].
    apply flag_bind; [|intros _].
    { apply flag_if; [apply flag_del_replies | apply flag_silent, silent_ret]. }
    apply flag_bind; [apply flag_silent, silent_get | intros st1].
    apply flag_if; [apply flag_del_extensions | apply flag_silent, silent_ret].
Qed.

Lemma flag_response message : flag_follows (handle_play_query_response message).
Proof.
  intros st.
  destruct (response_shape message st)
    as [[-> ->]|(p & st1 & Hp & Hst1 & Hfin)]; [by rewrite orb_false_r|].
  assert (H1 : has_played st1 = has_played st).
  { by destruct Hst1 as [->|(rs & _ & ->)]. }
  destruct Hfin as [[-> ->]|(exts & exts' & when & _ & -> & [->| ->])];
    cbn; by rewrite H1, orb_false_r.
Qed.

Lemma flag_run_op neon o : flag_follows (run_op neon o).
Proof.
  destruct o as [h m p|m|rnd m|m]; cbn [run_op].
  - intros st. destruct (play_final h m p st) as [-> _].
    unfold play, set_replies, set_extensions, schedule_event.
    destruct h; mstep; cbn; by rewrite orb_false_r.
  - apply flag_response.
  - apply flag_timeout.
  - intros st. rewrite handle_song_info_run.
    destruct (existsb (differs (gui st) (data m)) STATUS_KEYS); cbn;
      by rewrite orb_false_r.
Qed.

Lemma run_ops_flag neon ops st :
  has_played (run_ops neon ops st).1
  = has_played st || existsb is_play_start (run_ops neon ops st).2.
Proof.
  unfold run_ops.
  assert (H : forall acc : state * list effect,
            has_played acc.1 = has_played st || existsb is_play_start acc.2 ->
            let acc' := foldl (fun '(st, tr) o =>
                                 let r := run_op neon o st in
                                 (final r, tr ++ trace r)) acc ops in
            has_played acc'.1
            = has_played st || existsb is_play_start acc'.2).
  { induction ops as [|o ops IH]; intros [st0 tr0] Hacc; [done|].
    cbn [foldl]. apply IH. cbn [fst snd] in *.
    by rewrite (flag_run_op neon o st0), Hacc, existsb_app, orb_assoc. }
  apply (H (st, [])). cbn. by rewrite orb_false_r.
Qed.

(** X11: over any run of the handlers, [has_played] ends up true exactly
    when it was true before or some [play:start] event was emitted on the
    way: the flag is never reset, and nothing but a dispatch sets it. *)
Theorem has_played_follows_dispatch neon ops st :
  has_played (run_ops neon ops st).1
  = has_played st || existsb is_play_start (run_ops neon ops st).2.
Proof. apply run_ops_flag. Qed.

(** ** Sessions do not interfere *)

Lemma delete_insert_absent {A} (m : gmap string A) p x :
  m !! p = None -> delete p (<[p := x]> m) = m.
Proof. intros H. by rewrite delete_insert_eq, delete_id. Qed.

(** X12: a play request for a phrase without a session, followed by its
    timeout with no response in between, leaves both tables and
    [has_played] exactly as they were; all the user gets is the
    ["cant.play"] notice, when [neon_in_request] allows it. *)
Theorem unanswered_request_round_trip {D} neon rnd h (m : Message D) message
    p st :
  Payload.phrase (data message) = Some p ->
  query_replies st !! p = None ->
  query_extensions st !! p = None ->
  let st1 := final (play h m p st) in
  let o := _play_query_timeout neon rnd message st1 in
  result o = inr tt
  /\ trace o = (if neon message
                then [SpeakDialog "cant.play" (phrase_data p)] else [])
  /\ query_replies (final o) = query_replies st
  /\ query_extensions (final o) = query_extensions st
  /\ has_played (final o) = has_played st.
Proof.
  intros Hp Hr Hx st1 o. subst o st1.
  destruct (play_final h m p st) as [-> _].
  unfold _play_query_timeout. rewrite Hp.
  unfold set_extensions, replies_at, del_replies, del_extensions,
    with_extensions, with_replies.
  mstep. rewrite lookup_insert_eq. mstep. cbn [scan]. mstep.
  destruct (neon message); mstep; rewrite lookup_insert_eq; cbn [present];
    mstep; rewrite lookup_insert_eq; cbn [present]; mstep;
    cbn [result final trace query_replies query_extensions has_played];
    rewrite insert_insert_eq, !delete_insert_absent by done; done.
Qed.

Lemma unanswered_request_round_trip_witness :
  let st1 := final (play false (response Payload.empty) "rock" init) in
  let o := _play_query_timeout always 0 (timeout_message "rock") st1 in
  result o = inr tt
  /\ trace o = [SpeakDialog "cant.play" (phrase_data "rock")]
  /\ query_replies (final o) = query_replies init
  /\ query_extensions (final o) = query_extensions init
  /\ has_played (final o) = has_played init.
Proof.
  apply (unanswered_request_round_trip always 0 false
           (response Payload.empty) (timeout_message "rock") "rock" init);
    reflexivity.
Defined.

(** X13: a handler only touches the session of the phrase it is called for:
    for every other phrase the reply list and the extension list are what
    they were, also when the handler raised. *)
Theorem other_sessions_untouched neon o st q :
  op_phrase o <> Some q ->
  query_replies (final (run_op neon o st)) !! q = query_replies st !! q
  /\ query_extensions (final (run_op neon o st)) !! q
     = query_extensions st !! q.
Proof.
  intros Hq. destruct o as [h m p|m|rnd m|m]; cbn [run_op op_phrase] in *.
  - assert (p <> q) by congruence.
    destruct (play_final h m p st) as [-> _]. cbn.
    by rewrite !lookup_insert_ne.
  - destruct (response_shape m st)
      as [[-> _]|(p & st1 & Hp & Hst1 & Hfin)]; [done|].
    assert (p <> q) by congruence.
    assert (H1 : query_replies st1 !! q = query_replies st !! q
                 /\ query_extensions st1 !! q = query_extensions st !! q).
    { destruct Hst1 as [->|(rs & _ & ->)]; [done|]. cbn.
      by rewrite lookup_insert_ne. }
    destruct Hfin as [[-> _]|(exts & exts' & when & _ & -> & _)]; [done|].
    cbn. by rewrite lookup_insert_ne.
  - pose proof (timeout_tables neon rnd m st) as H. cbn zeta in H.
    destruct (Payload.phrase (data m)) as [p|]; [|by rewrite H].
    assert (p <> q) by congruence.
    destruct H as [(_ & -> & ->)|(_ & -> & ->)].
    + by rewrite lookup_insert_ne.
    + by rewrite !lookup_delete_ne.
  - by rewrite handle_song_info_run.
Qed.

Lemma other_sessions_untouched_witness :
  let st := session "jazz" [] ["A"] in
  let o := QueryTimeout 0 (timeout_message "rock") in
  query_replies (final (run_op always o st)) !! "jazz"
  = query_replies st !! "jazz"
  /\ query_extensions (final (run_op always o st)) !! "jazz"
     = query_extensions st !! "jazz".
Proof.
  intros st o. apply (other_sessions_untouched always o st "jazz").
  discriminate.
Defined.

(** ** Track information, again *)

Lemma update_gui_other d keys : forall g k,
  k ∉ keys -> update_gui d g keys !! k = g !! k.
Proof.
  induction keys as [|key keys IH]; intros g k Hk; [done|].
  apply not_elem_of_cons in Hk as [Hne Hk]. cbn [update_gui foldl].
  fold (update_gui d (<[key := status_val d key]> g) keys).
  rewrite IH by done. by rewrite lookup_insert_ne.
Qed.

Lemma update_gui_twice d g :
  update_gui d (update_gui d g STATUS_KEYS) STATUS_KEYS
  = update_gui d g STATUS_KEYS.
Proof.
  apply map_eq. intros k. destruct (decide (k ∈ STATUS_KEYS)) as [Hk|Hk].
  - by rewrite !update_gui_status.
  - by rewrite update_gui_other.
Qed.

Lemma differs_after_update d g :
  existsb (differs (update_gui d g STATUS_KEYS) d) STATUS_KEYS = false.
Proof.
  apply not_true_is_false. intros (k & Hk & Hd)%existsb_exists.
  apply list_elem_of_In in Hk. apply differs_true in Hd.
  by rewrite update_gui_status in Hd.
Qed.

(** X14: a status message that repeats the one before it is not a change:
    the second [handle_song_info] logs nothing and leaves the state as the
    first one left it. *)
Theorem repeated_status_is_silent message st :
  let st1 := final (handle_song_info message st) in
  handle_song_info message st1 = mkOutcome (inr tt) st1 [].
Proof.
  intros st1. subst st1. rewrite (handle_song_info_run message st).
  cbn [final]. rewrite handle_song_info_run.
  cbn [gui query_replies query_extensions has_played].
  by rewrite differs_after_update, update_gui_twice.
Qed.




(** ** The vocabulary helper *)

Lemma exact_match_true h utt lines :
  exact_match h utt lines = true
  <-> utt <> "" /\ exists i, i ∈ lines /\ str_strip h i = utt.
Proof.
  unfold exact_match. rewrite andb_true_iff, negb_true_iff, String.eqb_neq.
  rewrite existsb_exists. split; intros [Hu (i & Hi & Heq)]; (split; [done|]);
    exists i.
  - split; [by apply list_elem_of_In | by apply String.eqb_eq].
  - split; [by apply list_elem_of_In | by apply String.eqb_eq].
Qed.

Lemma voc_match_exact_cached h sl cache utt name lang lines :
  cache !! (lang_or lang sl +:+ name) = Some lines ->
  voc_match_exact h sl cache utt name lang
  = (inr (exact_match h utt lines), cache).
Proof. intros H. unfold voc_match_exact. by rewrite H. Qed.

(** What a call that returns has done. *)
Lemma voc_match_exact_ok h sl cache utt name lang r cache1 :
  voc_match_exact h sl cache utt name lang = (inr r, cache1) ->
  exists lines,
    cache1 !! (lang_or lang sl +:+ name) = Some lines
    /\ r = exact_match h utt lines.
Proof.
  unfold voc_match_exact.
  destruct (cache !! _) as [lines|] eqn:Hc.
  { intros [= <- <-]. eauto. }
  match goal with |- context [if ?c then ?a else ?b] =>
    destruct (if c then a else b) as [v|] end; [|done].
  destruct (_ && _); [|done].
  destruct (read_lines h v) as [e|lines]; [done|].
  intros [= <- <-]. eexists. by rewrite lookup_insert_eq.
Qed.

(** X16: when [voc_match_exact] returns, the lines of the vocabulary are in
    the cache under [lang + voc_filename]; the answer is true exactly when
    the utterance is not empty and equals one of those lines stripped; and a
    later call for the same vocabulary answers from the cache, with any
    utterance, whatever the files have become. *)
Theorem vocabulary_is_read_once h h' sl cache utt utt' name lang r cache1 :
  voc_match_exact h sl cache utt name lang = (inr r, cache1) ->
  exists lines,
    cache1 !! (lang_or lang sl +:+ name) = Some lines
    /\ (r = true <-> utt <> "" /\ exists i, i ∈ lines /\ str_strip h i = utt)
    /\ voc_match_exact h' sl cache1 utt' name lang
       = (inr (exact_match h' utt' lines), cache1).
Proof.
  intros H. destruct (voc_match_exact_ok _ _ _ _ _ _ _ _ H) as (lines & Hl & ->).
  exists lines. split_and!; [done| apply exact_match_true |].
  by apply voc_match_exact_cached.
Qed.

Lemma vocabulary_is_read_once_witness :
  let nothing := mkHost (fun _ _ => None) (fun _ => None)
                   (fun a b c => a) (fun _ => false) (fun _ => inr [])
                   (fun s => s) in
  let cache1 : gmap string (list string) :=
    {[ "en-usconverse_resume" := ["resume"; "continue"] ]} in
  exists lines,
    cache1 !! (lang_or None "en-us" +:+ "converse_resume") = Some lines
    /\ (true = true
        <-> "resume" <> ""
            /\ exists i, i ∈ lines /\ str_strip sample_host i = "resume")
    /\ voc_match_exact nothing "en-us" cache1 "play" "converse_resume" None
       = (inr (exact_match nothing "play" lines), cache1).
Proof.
  intros nothing cache1.
  apply (vocabulary_is_read_once sample_host nothing "en-us" ∅ "resume" "play"
           "converse_resume" None true cache1).
  reflexivity.
Defined.

(** X17: a vocabulary path that [find_resource] returns but that is not on
    disk raises [FileNotFoundError] on a cache miss; the mycroft-core
    location is tried only when [find_resource] returns nothing, so it does
    not help here, and the cache stays as it was. *)
Theorem stale_skill_vocabulary_raises h sl cache utt name lang v :
  cache !! (lang_or lang sl +:+ name) = None ->
  find_resource h (name +:+ ".voc") "vocab" = Some v ->
  v <> "" ->
  path_exists h v = false ->
  voc_match_exact h sl cache utt name lang
  = (inl (FileNotFoundError ("Could not find " +:+ name +:+ ".voc file")),
     cache).
Proof.
  intros Hc Hf Hv He. unfold voc_match_exact. cbn zeta. rewrite Hc, Hf.
  assert (Ht : path_truthy (Some v) = true).
  { cbn. by apply negb_true_iff, String.eqb_neq. }
  rewrite !Ht. cbn [andb]. by rewrite He.
Qed.

Lemma stale_skill_vocabulary_raises_witness :
  let stale := mkHost (fun _ _ => Some "vocab/yes.voc")
                 (fun _ => Some "text/en-us/yes.voc")
                 (fun a b c => a +:+ "/" +:+ b +:+ "/" +:+ c)
                 (fun path => String.eqb path "text/en-us/yes.voc")
                 (fun _ => inr ["yes"]) (fun s => s) in
  voc_match_exact stale "en-us" ∅ "yes" "yes" None
  = (inl (FileNotFoundError ("Could not find " +:+ "yes" +:+ ".voc file")), ∅).
Proof.
  intros stale.
  apply (stale_skill_vocabulary_raises stale "en-us" ∅ "yes" "yes" None
           "vocab/yes.voc"); try reflexivity.
  discriminate.
Defined.

(** X18: [voc_match_exact] raises only on a cache miss and then leaves the
    cache as it was, so that the lookup is tried again by the next call.
    What it raises is its own [FileNotFoundError] naming the vocabulary,
    or, for a path that passed the existence test, whatever reading the file
    raised. *)
Theorem vocabulary_error_leaves_cache h sl cache utt name lang e cache1 :
  voc_match_exact h sl cache utt name lang = (inl e, cache1) ->
  cache1 = cache
  /\ cache !! (lang_or lang sl +:+ name) = None
  /\ (e = FileNotFoundError ("Could not find " +:+ name +:+ ".voc file")
      \/ exists v, v <> "" /\ path_exists h v = true
                    /\ read_lines h v = inl e).
Proof.
  unfold voc_match_exact.
  destruct (cache !! _) as [lines|] eqn:Hc; [done|].
  match goal with |- context [if ?c then ?a else ?b] =>
    destruct (if c then a else b) as [v|] end.
  - destruct (path_truthy (Some v)) eqn:Ht; cbn [andb];
      [|intros [= <- <-]; split_and!; [done..|by left]].
    destruct (path_exists h v) eqn:He;
      [|intros [= <- <-]; split_and!; [done..|by left]].
    destruct (read_lines h v) as [e'|lines] eqn:Hread; [|done].
    intros [= <- <-]. split_and!; [done..|]. right. exists v.
    split_and!; [|done..]. cbn in Ht.
    by apply negb_true_iff, String.eqb_neq in Ht.
  - intros [= <- <-]. split_and!; [done..|by left].
Qed.

Lemma vocabulary_error_leaves_cache_witness :
  let locked := mkHost (fun _ _ => Some "vocab/yes.voc") (fun _ => None)
                  (fun a b c => a) (fun _ => true)
                  (fun _ => inl (ReadError "PermissionError"))
                  (fun s => s) in
  let e := ReadError "PermissionError" in
  (∅ : gmap string (list string)) = ∅
  /\ (∅ : gmap string (list string)) !! (lang_or None "en-us" +:+ "yes") = None
  /\ (e = FileNotFoundError ("Could not find " +:+ "yes" +:+ ".voc file")
      \/ exists v, v <> "" /\ path_exists locked v = true
                    /\ read_lines locked v = inl e).
Proof.
  intros locked e.
  apply (vocabulary_error_leaves_cache locked "en-us" ∅ "yes" "yes" None e ∅).
  reflexivity.
Defined.

(** ** [converse] *)

(** X19: as long as the skill has not dispatched any request (no
    [play:start] in the run since start-up), [converse] declines every
    message: it returns [False], calls nothing and does not look at the
    vocabulary, so a missing vocabulary file cannot make it raise. *)
Theorem converse_needs_a_dispatch neon ops h message cache lang :
  existsb is_play_start (run_ops neon ops init).2 = false ->
  let sk := mkSkill (run_ops neon ops init).1 cache lang in
  converse h message sk = (inr false, sk, []).
Proof.
  intros Hno sk. subst sk.
  pose proof (run_ops_flag neon ops init) as Hflag.
  rewrite Hno in Hflag. cbn in Hflag.
  unfold converse. cbn [engine]. rewrite Hflag.
  by destruct (data message) as [[|u us]|].
Qed.

Lemma converse_needs_a_dispatch_witness :
  let ops := [Play false (response Payload.empty) "rock";
              QueryTimeout 0 (timeout_message "rock")] in
  let message := mkMessage "skill.converse.request" (Some ["resume"]) [] in
  let sk := mkSkill (run_ops always ops init).1 ∅ "en-us" in
  converse sample_host message sk = (inr false, sk, []).
Proof.
  intros ops message.
  apply (converse_needs_a_dispatch always ops sample_host message ∅ "en-us").
  reflexivity.
Defined.

(** X20: [converse] never changes the engine state.  It answers [True] only
    after a dispatch ([has_played]) and for a first utterance that matches a
    line of the [converse_resume] vocabulary exactly; it then resumes the
    audio service and forwards [playback_control.resume].  In every other
    case it calls nothing. *)
Theorem converse_resumes_on_exact_match h message sk r sk' calls :
  converse h message sk = (r, sk', calls) ->
  engine sk' = engine sk
  /\ self_lang sk' = self_lang sk
  /\ (r = inr true ->
      has_played (engine sk) = true
      /\ (exists u us lines,
            data message = Some (u :: us)
            /\ voc_match_cache sk' !! (self_lang sk +:+ "converse_resume")
               = Some lines
            /\ u <> ""
            /\ exists i, i ∈ lines /\ str_strip h i = u)
      /\ calls = [AudioResume;
                  Bus (BusEmit (forward message "playback_control.resume"
                                  Payload.empty))])
  /\ (r <> inr true -> calls = []).
Proof.
  unfold converse.
  destruct (data message) as [[|u us]|] eqn:Hd;
    try (intros [= <- <- <-]; by split_and!).
  destruct (has_played (engine sk)) eqn:Hhp;
    [|intros [= <- <- <-]; by split_and!].
  destruct (voc_match_exact h (self_lang sk) (voc_match_cache sk) u
              "converse_resume" None) as [res cache] eqn:Hvoc.
  destruct res as [e|[]]; intros [= <- <- <-]; cbn; split_and!; try done.
  intros _. split_and!; [done| |done].
  destruct (voc_match_exact_ok _ _ _ _ _ _ _ _ Hvoc) as (lines & Hl & Hm).
  symmetry in Hm. apply exact_match_true in Hm as [Hu Hi].
  exists u, us, lines. by split_and!.
Qed.

Lemma converse_resumes_on_exact_match_witness :
  let message := mkMessage "skill.converse.request" (Some ["resume"]) [] in
  let sk := mkSkill (mkState ∅ ∅ true ∅) ∅ "en-us" in
  let sk' := mkSkill (mkState ∅ ∅ true ∅)
               {[ "en-usconverse_resume" := ["resume"; "continue"] ]}
               "en-us" in
  let calls := [AudioResume;
                Bus (BusEmit (forward message "playback_control.resume"
                                Payload.empty))] in
  engine sk' = engine sk
  /\ self_lang sk' = self_lang sk
  /\ ((inr true : voc_error + bool) = inr true ->
      has_played (engine sk) = true
      /\ (exists u us lines,
            data message = Some (u :: us)
            /\ voc_match_cache sk' !! (self_lang sk +:+ "converse_resume")
               = Some lines
            /\ u <> ""
            /\ exists i, i ∈ lines /\ str_strip sample_host i = u)
      /\ calls = [AudioResume;
                  Bus (BusEmit (forward message "playback_control.resume"
                                  Payload.empty))])
  /\ ((inr true : voc_error + bool) <> inr true -> calls = []).
Proof.
  intros message sk sk' calls.
  apply (converse_resumes_on_exact_match sample_host message sk (inr true) sk'
           calls).
  reflexivity.
Defined.

(** ** After a timeout that raised *)

(** X21: when [_play_query_timeout] raises for a phrase, it has already
    stored an empty extension list for it and does not reach the clean-up;
    a later [searching] true signal for that phrase therefore is accepted:
    the provider is put on the list and the timeout is scheduled again. *)
Theorem failed_timeout_accepts_late_signal neon rnd message late p sid st e :
  Payload.phrase (data message) = Some p ->
  result (_play_query_timeout neon rnd message st) = inl e ->
  Payload.phrase (data late) = Some p ->
  Payload.skill_id (data late) = Some sid ->
  Payload.searching (data late) = Some true ->
  let st1 := final (_play_query_timeout neon rnd message st) in
  query_extensions st1 !! p = Some []
  /\ query_replies st1 = query_replies st
  /\ handle_play_query_response late st1
     = mkOutcome (inr tt) (with_extensions st1 p [sid]) (reschedule 5 p).
Proof.
  intros Hp He Hlp Hsid Hs st1. subst st1.
  pose proof (timeout_tables neon rnd message st) as H. cbn zeta in H.
  rewrite Hp in H. destruct H as [(_ & Hr & Hx)|(Hok & _)];
    [|by rewrite He in Hok].
  assert (Hx' : query_extensions
                  (final (_play_query_timeout neon rnd message st)) !! p
                = Some []).
  { by rewrite Hx, lookup_insert_eq. }
  split_and!; [done..|].
  by rewrite (response_still_searching late p sid []).
Qed.

Lemma failed_timeout_accepts_late_signal_witness :
  let late := response (sample_signal "jazz" "A" true) in
  let st1 := final (_play_query_timeout always 0 (timeout_message "jazz") init) in
  query_extensions st1 !! "jazz" = Some []
  /\ query_replies st1 = query_replies init
  /\ handle_play_query_response late st1
     = mkOutcome (inr tt) (with_extensions st1 "jazz" ["A"])
         (reschedule 5 "jazz").
Proof.
  intros late.
  apply (failed_timeout_accepts_late_signal always 0 (timeout_message "jazz")
           late "jazz" "A" init (KeyError "jazz")); reflexivity.
Defined.
